(** * cloudflare-abtest: the A/B-testing worker and its durable counter

    A shallow embedding of [src/index.mjs]: the [Counter] durable object
    (constructor, [fetch]) and the worker's [handleRequest] with its cookie
    helpers, followed by the properties of the specification.

    Modelling conventions.
    - A JavaScript number that holds a counter is an exact integer ([Z]);
      this is what a double is on the safe range [|v| <= 2^53], which no
      counter of page views leaves.  [undefined] and [NaN] are kept as
      separate values, since [this.value] is [undefined] until the
      constructor's callback has run.
    - An [async] function is cut at its [await]s: the code between two
      suspension points runs atomically (one JavaScript thread per object).
      The durable object is a small transition system whose events are the
      deliveries and resumptions chosen by the runtime.
    - A storage write takes effect in the object's storage when [put] is
      called (writes are applied in call order); the promise it returns
      settles later.  Whether the storage of an object accepts writes is a
      field of the object ([storage_ok]).
    - The origin server and the random draw are inputs of the handler. *)

From Stdlib Require Import ZArith QArith Ascii String.
From stdpp Require Import gmap strings list fin_maps pretty.

Local Close Scope Q_scope.
Local Open Scope Z_scope.

(** ** JavaScript values and the string operations the program uses *)

Module JS.

(** The values [this.value], [stored] and [currentValue] range over. *)
Inductive value : Type :=
| Undefined
| NaN
| Num (z : Z).

#[global] Instance value_eq_dec : EqDecision value.
Proof. solve_decision. Defined.

(** [++x]: [ToNumber x + 1]. *)
Definition pre_incr (v : value) : value :=
  match v with
  | Num z => Num (z + 1)
  | Undefined | NaN => NaN
  end.

(** [--x]. *)
Definition pre_decr (v : value) : value :=
  match v with
  | Num z => Num (z - 1)
  | Undefined | NaN => NaN
  end.

(** [x || 0]: [undefined], [NaN] and [0] are falsy. *)
Definition or_zero (v : value) : value :=
  match v with
  | Num z => if z =? 0 then Num 0 else Num z
  | Undefined | NaN => Num 0
  end.

(** The body text of [new Response(x)]: no body for [undefined],
    otherwise [String(x)]. *)
Definition body_text (v : value) : string :=
  match v with
  | Undefined => EmptyString
  | NaN => "NaN"
  | Num z => pretty z
  end.

(** [s.includes(pat)]: [pat] occurs in [s] as a contiguous substring. *)
Fixpoint includes (s pat : string) : bool :=
  String.prefix pat s ||
  match s with
  | EmptyString => false
  | String _ s' => includes s' pat
  end.

(** Truthiness of a string: only the empty string is falsy. *)
Definition truthy (s : string) : bool :=
  match s with
  | EmptyString => false
  | String _ _ => true
  end.

Definition is_num (v : value) : Prop := ∃ z, v = Num z.

End JS.

(** ** Responses, requests and outcomes of asynchronous calls *)

Record Response : Type := mkResponse {
  status : nat;
  headers : list (string * string);
  body : string
}.

#[global] Instance Response_eq_dec : EqDecision Response.
Proof. solve_decision. Defined.

(** What an awaited promise settles to. *)
Inductive Error : Type :=
| StorageFailure.

Inductive Settled (A : Type) : Type :=
| Fulfilled (a : A)
| Rejected (e : Error).
Arguments Fulfilled {A} a.
Arguments Rejected {A} e.

(** [new Response(x)] for a counter value: default status, the text of [x]
    as body.  Only the headers the program sets itself are modelled. *)
Definition Response_of_value (v : JS.value) : Response :=
  {| status := 200; headers := []; body := JS.body_text v |}.

(** ** The [Counter] durable object *)

Module Counter.

(** One durable object: the instance field [this.value], the slot
    ["value"] of [this.state.storage] ([Undefined] when nothing is
    stored), whether its storage accepts writes, and whether the
    [blockConcurrencyWhile] callback of the constructor is still
    running. *)
Record t : Type := mk {
  value : JS.value;
  storage : JS.value;
  storage_ok : bool;
  blocked : bool
}.

#[global] Instance t_eq_dec : EqDecision t.
Proof. solve_decision. Defined.

(** [constructor(state, env)]: the callback passed to
    [blockConcurrencyWhile] is started and suspends on
    [storage.get("value")]; [this.value] is not assigned yet. *)
Definition constructor (stored : JS.value) (ok : bool) : t :=
  {| value := JS.Undefined; storage := stored; storage_ok := ok;
     blocked := true |}.

(** The rest of the callback: [this.value = stored || 0], after which
    the runtime delivers requests again. *)
Definition init_done (c : t) : t :=
  {| value := JS.or_zero (storage c); storage := storage c;
     storage_ok := storage_ok c; blocked := false |}.

(** [this.state.storage.put("value", v)]. *)
Definition storage_put (v : JS.value) (c : t) : t :=
  {| value := value c;
     storage := if storage_ok c then v else storage c;
     storage_ok := storage_ok c; blocked := blocked c |}.

Definition set_value (v : JS.value) (c : t) : t :=
  {| value := v; storage := storage c; storage_ok := storage_ok c;
     blocked := blocked c |}.

(** Where [fetch] stands after its synchronous part: suspended on the
    [await] of [storage.put], holding its local [currentValue], or
    already returning. *)
Inductive stage : Type :=
| AwaitPut (currentValue : JS.value)
| Return (r : Response).

(** [fetch(request)] up to its first [await]; [pathname] is
    [new URL(request.url).pathname]. *)
Definition fetch_begin (pathname : string) (c : t) : stage * t :=
  let currentValue := value c in
  if String.eqb pathname "/increment" then
    let c1 := set_value (JS.pre_incr (value c)) c in
    let currentValue := value c1 in
    (AwaitPut currentValue, storage_put (value c1) c1)
  else if String.eqb pathname "/decrement" then
    let c1 := set_value (JS.pre_decr (value c)) c in
    let currentValue := value c1 in
    (AwaitPut currentValue, storage_put (value c1) c1)
  else if String.eqb pathname "/value" then
    (Return (Response_of_value currentValue), c)
  else
    (Return {| status := 404; headers := [];
               body := "Not found " +:+ pathname |}, c).

(** [fetch] after the [await]: the write failed and the exception
    leaves [fetch], or [new Response(currentValue)] is returned. *)
Definition fetch_resume (currentValue : JS.value) (c : t)
  : Settled Response :=
  if storage_ok c then Fulfilled (Response_of_value currentValue)
  else Rejected StorageFailure.

(** A call that no other call interleaves with. *)
Definition fetch (pathname : string) (c : t) : Settled Response * t :=
  match fetch_begin pathname c with
  | (AwaitPut currentValue, c') => (fetch_resume currentValue c', c')
  | (Return r, c') => (Fulfilled r, c')
  end.

(** *** Interleaved calls *)

(** The runtime's choices: the constructor's callback completes; request
    [id] is delivered and runs to its first [await]; the write awaited
    by request [id] settles and the request runs to its end. *)
Inductive event : Type :=
| InitDone
| Deliver (id : nat) (pathname : string)
| PutDone (id : nat).

(** The object together with the calls in flight (each with its own
    [currentValue]) and the calls that have settled, oldest first. *)
Record system : Type := mkSystem {
  obj : t;
  suspended : gmap nat JS.value;
  settled : list (nat * Settled Response)
}.

Definition boot (stored : JS.value) (ok : bool) : system :=
  {| obj := constructor stored ok; suspended := ∅; settled := [] |}.

(** One event.  [None]: the runtime cannot make this choice here (no
    request is delivered while the constructor's callback runs, a
    request in flight is not delivered again, only an awaited write
    settles). *)
Definition step (e : event) (s : system) : option system :=
  match e with
  | InitDone =>
      if blocked (obj s)
      then Some {| obj := init_done (obj s); suspended := suspended s;
                   settled := settled s |}
      else None
  | Deliver id pathname =>
      if blocked (obj s) then None
      else match suspended s !! id with
           | Some _ => None
           | None =>
               match fetch_begin pathname (obj s) with
               | (AwaitPut currentValue, c') =>
                   Some {| obj := c';
                           suspended := <[id := currentValue]> (suspended s);
                           settled := settled s |}
               | (Return r, c') =>
                   Some {| obj := c'; suspended := suspended s;
                           settled := settled s ++ [(id, Fulfilled r)] |}
               end
           end
  | PutDone id =>
      match suspended s !! id with
      | None => None
      | Some currentValue =>
          Some {| obj := obj s; suspended := delete id (suspended s);
                  settled := settled s ++
                             [(id, fetch_resume currentValue (obj s))] |}
      end
  end.

Fixpoint run (sch : list event) (s : system) : option system :=
  match sch with
  | [] => Some s
  | e :: sch' =>
      match step e s with
      | Some s' => run sch' s'
      | None => None
      end
  end.

(** The number of requests for [p] that a schedule delivers. *)
Fixpoint calls (p : string) (sch : list event) : nat :=
  match sch with
  | [] => 0%nat
  | Deliver _ q :: sch' =>
      ((if String.eqb q p then 1 else 0) + calls p sch')%nat
  | _ :: sch' => calls p sch'
  end.

(** Schedules of [increment] calls on an initialized object: deliveries
    of [/increment] and the resumptions of the calls. *)
Definition increments_only (sch : list event) : bool :=
  forallb (λ e, match e with
                | Deliver _ p => String.eqb p "/increment"
                | PutDone _ => true
                | InitDone => false
                end) sch.

(** The events of the call [id]. *)
Definition concerns (id : nat) (e : event) : bool :=
  match e with
  | Deliver i _ | PutDone i => Nat.eqb i id
  | InitDone => false
  end.

(** What the calls of a state have returned, oldest first. *)
Definition returned (s : system) : list (Settled Response) :=
  snd <$> settled s.

(** The value a new instance would load from the storage: [stored || 0]. *)
Definition persisted (c : t) : JS.value := JS.or_zero (storage c).


(** The bookkeeping of [k] increments on a counter initialized at [V],
    with healthy storage: the instance and the storage hold [V + k], and
    the calls, returned or still suspended, hold [V + 1 .. V + k], one
    each. *)
Definition tally (V : Z) (k : nat) (s : system) : Prop :=
  blocked (obj s) = false ∧ storage_ok (obj s) = true ∧
  value (obj s) = JS.Num (V + Z.of_nat k) ∧
  persisted (obj s) = JS.Num (V + Z.of_nat k) ∧
  ((0 < k)%nat → storage (obj s) = JS.Num (V + Z.of_nat k)) ∧
  returned s ++
    ((λ call, Fulfilled (Response_of_value (snd call))) <$>
       map_to_list (suspended s))
  ≡ₚ (λ j : nat, Fulfilled (Response_of_value (JS.Num (V + Z.of_nat j)))) <$> seq 1 k.

(** A schedule of [value] requests. *)
Definition reads (ids : list nat) : list event :=
  (λ id, Deliver id "/value") <$> ids.

(** A settled call that did not see [this.value] before it was loaded: it
    returned the text of a number, or "not found", or failed on its
    write. *)
Definition after_loading (r : Settled Response) : Prop :=
  match r with
  | Fulfilled r => (∃ z, r = Response_of_value (JS.Num z)) ∨ status r = 404%nat
  | Rejected _ => True
  end.

(** Either the constructor's callback is still running and nothing has
    been delivered, or [this.value] is a number and so is the
    [currentValue] of every call, suspended or settled. *)
Definition loaded_before_use (s : system) : Prop :=
  (blocked (obj s) = true ∧ suspended s = ∅ ∧ settled s = []) ∨
  (blocked (obj s) = false ∧ JS.is_num (value (obj s)) ∧
   map_Forall (λ _ currentValue, JS.is_num currentValue) (suspended s) ∧
   Forall after_loading (returned s)).

(** The reading of "the value never drops below zero": in every state
    an initialized counter reaches, over a storage holding [stored], the
    value is a number that is not negative. *)
Definition never_negative (stored : JS.value) : Prop :=
  ∀ sch s', run (InitDone :: sch) (boot stored true) = Some s' →
            ∃ z, value (obj s') = JS.Num z ∧ 0 ≤ z.

End Counter.

(** ** JSON values and [JSON.stringify] *)

Module JSON.

#[warnings="-register-all"]
Inductive t : Type :=
| Str (s : string)
| Int (z : Z)
| Obj (fields : list (string * t)).

Definition dquote : string := String "034"%char EmptyString.
Definition backslash : string := String "092"%char EmptyString.
Definition newline : string := String "010"%char EmptyString.

Definition hex_digit (n : nat) : ascii :=
  match n with
  | 0 => "0" | 1 => "1" | 2 => "2" | 3 => "3" | 4 => "4" | 5 => "5"
  | 6 => "6" | 7 => "7" | 8 => "8" | 9 => "9" | 10 => "a" | 11 => "b"
  | 12 => "c" | 13 => "d" | 14 => "e" | _ => "f"
  end%nat%char.

(** One character of [QuoteJSONString]. *)
Definition escape (a : ascii) : string :=
  let n := nat_of_ascii a in
  if (n =? 34)%nat then backslash +:+ dquote
  else if (n =? 92)%nat then backslash +:+ backslash
  else if (n =? 8)%nat then backslash +:+ "b"
  else if (n =? 9)%nat then backslash +:+ "t"
  else if (n =? 10)%nat then backslash +:+ "n"
  else if (n =? 12)%nat then backslash +:+ "f"
  else if (n =? 13)%nat then backslash +:+ "r"
  else if (n <? 32)%nat then
    backslash +:+ "u00" +:+
    String (hex_digit (n / 16)) (String (hex_digit (n mod 16)) EmptyString)
  else String a EmptyString.

Fixpoint escape_all (s : string) : string :=
  match s with
  | EmptyString => EmptyString
  | String a s' => escape a +:+ escape_all s'
  end.

Definition quote (s : string) : string := dquote +:+ escape_all s +:+ dquote.

Fixpoint join (sep : string) (parts : list string) : string :=
  match parts with
  | [] => EmptyString
  | [p] => p
  | p :: rest => p +:+ sep +:+ join sep rest
  end.

(** [SerializeJSONProperty] with indentation unit [gap] at the current
    [indent]; properties are written in insertion order. *)
Fixpoint serialize (gap indent : string) (j : t) : string :=
  match j with
  | Str s => quote s
  | Int z => pretty z
  | Obj fields =>
      let stepback := indent in
      let indent := indent +:+ gap in
      let partial :=
        map (λ kv : string * t,
               quote (fst kv) +:+ ":" +:+
               (if JS.truthy gap then " " else EmptyString) +:+
               serialize gap indent (snd kv)) fields in
      match partial with
      | [] => "{}"
      | _ :: _ =>
          if JS.truthy gap then
            "{" +:+ newline +:+ indent +:+
            join ("," +:+ newline +:+ indent) partial +:+
            newline +:+ stepback +:+ "}"
          else "{" +:+ join "," partial +:+ "}"
      end
  end.

(** [JSON.stringify(j, null, 2)]. *)
Definition stringify2 (j : t) : string := serialize "  " EmptyString j.

(** [JSON.stringify(j)]. *)
Definition stringify (j : t) : string := serialize EmptyString EmptyString j.

End JSON.

(** ** The worker: requests, the counter namespace, asynchronous code *)

Record URL : Type := mkURL {
  host : string;
  pathname : string;
  search : string
}.

(** A request as the worker reads it: its URL and
    [request.headers.get("cookie")] ([None] for [null]). *)
Record Request : Type := mkRequest {
  url : URL;
  cookie : option string
}.

(** [url.pathname = p]. *)
Definition set_pathname (p : string) (u : URL) : URL :=
  {| host := host u; pathname := p; search := search u |}.

(** The namespace [env.COUNTER]: the durable objects that exist, by name. *)
Abbreviation World := (gmap string Counter.t).

(** An [async] computation over the namespace: it changes the objects and
    settles with a value or an exception. *)
Definition Async (A : Type) : Type := World → Settled A * World.

Definition resolve {A : Type} (a : A) : Async A :=
  λ w, (Fulfilled a, w).

(** [await m], then the rest [k] of the function; an exception thrown by
    the [await] leaves the function. *)
Definition await {A B : Type} (m : Async A) (k : A → Async B) : Async B :=
  λ w, match m w with
       | (Fulfilled a, w') => k a w'
       | (Rejected e, w') => (Rejected e, w')
       end.

(** A call whose promise is dropped: its effects take place, its outcome
    reaches nobody. *)
Definition unawaited {A B : Type} (m : Async A) (k : Async B) : Async B :=
  λ w, k (snd (m w)).

Notation "'let_await' x := m 'in' k" := (await m (λ x, k))
  (at level 10, x name, m at level 100, k at level 200, only parsing).

Definition BASE_PATH : string := "/abtest".
Definition CONTROL_PATH : string := BASE_PATH +:+ "/control".
Definition VARIANT_PATH : string := BASE_PATH +:+ "/variant".
Definition ACTION_PATH : string := BASE_PATH +:+ "/action".
Definition RESULT_PATH : string := BASE_PATH +:+ "/result".

Definition COUNTER_CONTROL_SHOW : string := "control-show".
Definition COUNTER_CONTROL_ACTION : string := "control-action".
Definition COUNTER_VARIANT_SHOW : string := "variant-show".
Definition COUNTER_VARIANT_ACTION : string := "variant-action".

Definition COOKIE_NAME : string := "cloudflare_ab_test".

(** The object [env.COUNTER.get(env.COUNTER.idFromName(key))]: the one of
    that name, created with empty storage at its first reference. *)
Definition COUNTER_get (key : string) (w : World) : Counter.t :=
  default (Counter.constructor JS.Undefined true) (w !! key).

(** The runtime delivers a request once the constructor's callback has
    completed. *)
Definition ready (c : Counter.t) : Counter.t :=
  if Counter.blocked c then Counter.init_done c else c.

(** The stub is given a relative reference (["increment"], ["value"]); the
    object receives it resolved against the runtime's base URL, whose
    path is the root. *)
Definition stub_pathname (input : string) : string := "/" +:+ input.

(** [await obj.fetch(input)] on the object named [key]. *)
Definition stub_fetch (key input : string) : Async Response :=
  λ w, let c := ready (COUNTER_get key w) in
       let '(r, c') := Counter.fetch (stub_pathname input) c in
       (r, <[key := c']> w).

(** What a [value] request to the object named [key] would read. *)
Definition reading (key : string) (w : World) : JS.value :=
  Counter.value (ready (COUNTER_get key w)).

Definition incrementCounter (key : string) : Async string :=
  let_await resp := stub_fetch key "increment" in
  resolve (body resp).

Definition getCounterValue (key : string) : Async string :=
  let_await resp := stub_fetch key "value" in
  resolve (body resp).

Definition hasControlCookie (request : Request) : bool :=
  match cookie request with
  | None => false
  | Some cookie =>
      JS.truthy cookie && JS.includes cookie (COOKIE_NAME +:+ "=control")
  end.

Definition hasVariantCookie (request : Request) : bool :=
  match cookie request with
  | None => false
  | Some cookie =>
      JS.truthy cookie && JS.includes cookie (COOKIE_NAME +:+ "=variant")
  end.

Definition append_header (name value : string) (r : Response) : Response :=
  {| status := status r; headers := headers r ++ [(name, value)];
     body := body r |}.

(** [new Response(response.body, response)]: the same status, headers and
    body, in a response whose headers can be changed. *)
Definition clone (response : Response) : Response :=
  {| status := status response; headers := headers response;
     body := body response |}.

Definition setAbTestCookie (response : Response) (value : string) : Response :=
  let newResponse := clone response in
  append_header "Set-Cookie" (COOKIE_NAME +:+ "=" +:+ value +:+ "; path=/")
    newResponse.

Definition actionNotCountedCookie (request : Request) : bool :=
  match cookie request with
  | None => false
  | Some cookie =>
      JS.truthy cookie &&
      negb (JS.includes cookie "cloudflare_ab_test_counted=true")
  end.

Definition setActionCountedCookie (response : Response) : Response :=
  let newResponse := clone response in
  append_header "Set-Cookie" "cloudflare_ab_test_counted=true; path=/"
    newResponse.

(** [Response.redirect(location, code)]. *)
Definition Response_redirect (location : string) (code : nat) : Response :=
  {| status := code; headers := [("Location", location)];
     body := EmptyString |}.

(** [Math.random() < 0.5 ? "variant" : "control"] for the draw [random]. *)
Definition choose_group (random : Q) : string :=
  match Qcompare random (1 # 2) with
  | Lt => "variant"
  | Eq | Gt => "control"
  end.

(** The [data] object of the result path. *)
Definition result_data
    (counterControlShow counterControlAction
     counterVariantShow counterVariantAction : string) : JSON.t :=
  JSON.Obj [("controlShow", JSON.Str counterControlShow);
            ("controlAction", JSON.Str counterControlAction);
            ("variantShow", JSON.Str counterVariantShow);
            ("variantAction", JSON.Str counterVariantAction)].

Section Worker.

(** The origin server behind the worker: the response to a forwarded
    request. *)
Variable origin : Request → Response.

(** [await fetch(request)]. *)
Definition fetch (request : Request) : Async Response :=
  resolve (origin request).

(** [await fetch(url, request)]: the request, sent to [url]. *)
Definition fetch_url (url : URL) (request : Request) : Async Response :=
  resolve (origin {| url := url; cookie := cookie request |}).

(** [handleRequest(request, env)]; [random] is what [Math.random()]
    returns if it is called. *)
Definition handleRequest (random : Q) (request : Request) : Async Response :=
  let url := url request in
  if String.eqb (pathname url) BASE_PATH then
    if hasControlCookie request then
      let url := set_pathname CONTROL_PATH url in
      fetch request
    else if hasVariantCookie request then
      let url := set_pathname VARIANT_PATH url in
      fetch_url url request
    else
      let group := choose_group random in
      let counted :=
        if String.eqb group "variant"
        then (set_pathname VARIANT_PATH url,
              incrementCounter COUNTER_VARIANT_SHOW)
        else (set_pathname CONTROL_PATH url,
              incrementCounter COUNTER_CONTROL_SHOW) in
      let url := fst counted in
      unawaited (snd counted)
        (let_await response := fetch_url url request in
         resolve (setAbTestCookie response group))
  else if String.eqb (pathname url) ACTION_PATH then
    let response :=
      Response_redirect "https://ptrlaszlo.com/posts/cloudflare-ab-testing"
        302 in
    if hasControlCookie request && actionNotCountedCookie request then
      let_await _ := incrementCounter COUNTER_CONTROL_ACTION in
      let response := setActionCountedCookie response in
      resolve response
    else if hasVariantCookie request && actionNotCountedCookie request then
      let_await _ := incrementCounter COUNTER_VARIANT_ACTION in
      let response := setActionCountedCookie response in
      resolve response
    else resolve response
  else if String.eqb (pathname url) RESULT_PATH then
    let_await counterControlShow := getCounterValue COUNTER_CONTROL_SHOW in
    let_await counterControlAction := getCounterValue COUNTER_CONTROL_ACTION in
    let_await counterVariantShow := getCounterValue COUNTER_VARIANT_SHOW in
    let_await counterVariantAction := getCounterValue COUNTER_VARIANT_ACTION in
    let data := result_data counterControlShow counterControlAction
                  counterVariantShow counterVariantAction in
    resolve {| status := 200;
               headers := [("content-type", "application/json;charset=UTF-8")];
               body := JSON.stringify2 data |}
  else fetch request.

End Worker.
(** ** Vocabulary of the worker's properties *)

(** The parts of [s] between occurrences of [sep]. *)
Fixpoint split_on (sep : ascii) (s : string) : list string :=
  match s with
  | EmptyString => [EmptyString]
  | String a s' =>
      if Ascii.eqb a sep then EmptyString :: split_on sep s'
      else match split_on sep s' with
           | [] => [String a EmptyString]
           | part :: parts => String a part :: parts
           end
  end.

(** The values of the [Set-Cookie] headers of a response. *)
Definition set_cookies (r : Response) : list string :=
  snd <$> filter (λ h, fst h = "Set-Cookie") (headers r).

(** The [name=value] pair of a [Set-Cookie] value and its attributes. *)
Definition cookie_pair (set_cookie : string) : string :=
  hd EmptyString (split_on ";" set_cookie).

Definition cookie_attributes (set_cookie : string) : list string :=
  tail (split_on ";" set_cookie).

(** The request carries a cookie header in which [pair] occurs. *)
Definition carries (request : Request) (pair : string) : Prop :=
  ∃ c, cookie request = Some c ∧ JS.includes c pair = true.

(** The group the handler takes a visitor to be assigned to. *)
Definition assigned_group (request : Request) : option string :=
  if hasControlCookie request then Some "control"
  else if hasVariantCookie request then Some "variant"
  else None.

Definition show_counter (group : string) : string :=
  if String.eqb group "variant" then COUNTER_VARIANT_SHOW
  else COUNTER_CONTROL_SHOW.

Definition action_counter (group : string) : string :=
  if String.eqb group "variant" then COUNTER_VARIANT_ACTION
  else COUNTER_CONTROL_ACTION.

Definition group_page (group : string) : string :=
  if String.eqb group "variant" then VARIANT_PATH else CONTROL_PATH.

(** The storage of the object named [key] accepts writes. *)
Definition healthy (key : string) (w : World) : bool :=
  Counter.storage_ok (COUNTER_get key w).

(** A uniform draw with [bits] random bits: the [k]-th of the [2 ^ bits]
    equally likely values [k / 2 ^ bits] of [[0, 1)]. *)
Definition draw (bits k : nat) : Q :=
  Z.of_nat k # Pos.of_nat (2 ^ bits).

(** The draws, among the [2 ^ bits], that choose [group]. *)
Definition draws_choosing (group : string) (bits : nat) : list nat :=
  filter (λ k, choose_group (draw bits k) = group) (seq 0 (2 ^ bits)).

(** The redirect of the action path. *)
Definition action_redirect : Response :=
  Response_redirect "https://ptrlaszlo.com/posts/cloudflare-ab-testing" 302.

(** A request for [path] with the given cookie header. *)
Definition request_to (path : string) (cookie : option string) : Request :=
  {| url := {| host := "https://example.com"; pathname := path;
               search := EmptyString |};
     cookie := cookie |}.

(** An origin that answers with the path it was asked for. *)
Definition echo_origin (request : Request) : Response :=
  {| status := 200; headers := []; body := pathname (url request) |}.

(** A counter whose storage holds [z], not yet loaded into memory. *)
Definition stored_counter (z : Z) : Counter.t :=
  Counter.constructor (JS.Num z) true.

(** The prior state [controlShow = 5, controlAction = 2, variantShow = 7,
    variantAction = 3]. *)
Definition prior_state : World :=
  <[COUNTER_CONTROL_SHOW := stored_counter 5]>
  (<[COUNTER_CONTROL_ACTION := stored_counter 2]>
  (<[COUNTER_VARIANT_SHOW := stored_counter 7]>
  (<[COUNTER_VARIANT_ACTION := stored_counter 3]> ∅))).

(** The object [{"controlShow":5,"controlAction":2,"variantShow":7,
    "variantAction":3}], with integer fields. *)
Definition integer_result : JSON.t :=
  JSON.Obj [("controlShow", JSON.Int 5); ("controlAction", JSON.Int 2);
            ("variantShow", JSON.Int 7); ("variantAction", JSON.Int 3)].

(** The same object with the counters as strings. *)
Definition string_result : JSON.t :=
  result_data "5" "2" "7" "3".

(** A world in which the storage of the control action counter rejects
    writes. *)
Definition failing_action_storage : World :=
  <[COUNTER_CONTROL_ACTION := Counter.mk (JS.Num 2) (JS.Num 2) false false]> ∅.

(** One line [  "name": "digits"] of the pretty-printed result. *)
Definition result_line (name digits : string) : string :=
  "  " +:+ JSON.dquote +:+ name +:+ JSON.dquote +:+ ": " +:+
  JSON.dquote +:+ digits +:+ JSON.dquote.

(** The text the result path answers with in [prior_state]. *)
Definition prior_state_text : string :=
  "{" +:+ JSON.newline +:+
  result_line "controlShow" "5" +:+ "," +:+ JSON.newline +:+
  result_line "controlAction" "2" +:+ "," +:+ JSON.newline +:+
  result_line "variantShow" "7" +:+ "," +:+ JSON.newline +:+
  result_line "variantAction" "3" +:+ JSON.newline +:+
  "}".

(** The response of the result path for the four readings. *)
Definition result_response (w : World) : Response :=
  {| status := 200;
     headers := [("content-type", "application/json;charset=UTF-8")];
     body := JSON.stringify2
               (result_data
                  (JS.body_text (reading COUNTER_CONTROL_SHOW w))
                  (JS.body_text (reading COUNTER_CONTROL_ACTION w))
                  (JS.body_text (reading COUNTER_VARIANT_SHOW w))
                  (JS.body_text (reading COUNTER_VARIANT_ACTION w))) |}.

(** The handler answers the request with a response. *)
Definition served (outcome : Settled Response * World) : Prop :=
  ∃ response, fst outcome = Fulfilled response.

(** ** Vocabulary of further properties *)

(** The three paths [Counter.fetch] knows. *)
Definition known_path (p : string) : bool :=
  String.eqb p "/increment" || String.eqb p "/decrement" ||
  String.eqb p "/value".

(** The counter a request makes the handler increment, if any: the show
    counter of the drawn group for a new visitor on the entry path, the
    action counter of the visitor's group for an action not yet counted. *)
Definition counted_by (random : Q) (request : Request) : option string :=
  if String.eqb (pathname (url request)) BASE_PATH then
    match assigned_group request with
    | None => Some (show_counter (choose_group random))
    | Some _ => None
    end
  else if String.eqb (pathname (url request)) ACTION_PATH then
    match assigned_group request with
    | Some g => if actionNotCountedCookie request
                then Some (action_counter g) else None
    | None => None
    end
  else None.

(** The namespace after a sequence of requests, each with its draw,
    handled one after the other. *)
Fixpoint serve (origin : Request → Response)
    (requests : list (Q * Request)) (w : World) : World :=
  match requests with
  | [] => w
  | (random, request) :: rest =>
      serve origin rest (snd (handleRequest origin random request w))
  end.

(** How many of the requests make the handler increment [key]. *)
Definition hits (key : string) (requests : list (Q * Request)) : nat :=
  length (filter (λ rr, counted_by (fst rr) (snd rr) = Some key) requests).

(** The namespace after every instance was evicted from memory: each
    object is constructed again over its storage. *)
Definition restart (w : World) : World :=
  (λ c, Counter.constructor (Counter.storage c) (Counter.storage_ok c)) <$> w.

(** Every object accepts writes and reads as what its storage would
    load. *)
Definition durable (w : World) : Prop :=
  ∀ key c, w !! key = Some c →
           Counter.storage_ok c = true ∧
           Counter.value (ready c) = Counter.persisted c.

(** A request of a visitor not seen before: the entry path, no group
    found in the cookies. *)
Definition new_visitor (request : Request) : bool :=
  String.eqb (pathname (url request)) BASE_PATH &&
  negb (hasControlCookie request) && negb (hasVariantCookie request).

(** The first action of an assigned visitor: the action path, a group
    found in the cookies, not yet counted. *)
Definition first_action (request : Request) : bool :=
  String.eqb (pathname (url request)) ACTION_PATH &&
  (hasControlCookie request || hasVariantCookie request) &&
  actionNotCountedCookie request.

(** ** Cookies as the specification reads them, and as the handler does *)

(** [pat] occurs in [s]: some text, [pat], some text. *)
Definition occurs (pat s : string) : Prop :=
  ∃ pre post, s = pre +:+ pat +:+ post.

(** The group the handler's substring tests find in a cookie header:
    control if [cloudflare_ab_test=control] occurs anywhere in it,
    otherwise variant if [cloudflare_ab_test=variant] occurs. *)
Definition detected_group (header g : string) : Prop :=
  (g = "control" ∧ occurs "cloudflare_ab_test=control" header) ∨
  (g = "variant" ∧ ¬ occurs "cloudflare_ab_test=control" header ∧
   occurs "cloudflare_ab_test=variant" header).

Fixpoint trim_left (s : string) : string :=
  match s with
  | String " " s' => trim_left s'
  | _ => s
  end.

(** Following the specification's words (cookies are name=value pairs in
    a request header): the pairs of a cookie header, split at the
    semicolons, leading blanks dropped. *)
Definition spec_cookie_pairs (header : string) : list string :=
  trim_left <$> split_on ";" header.

(** Following the specification's words: the assignment cookies a request
    carries, that is the groups [g] of [control], [variant] for which
    the pair [cloudflare_ab_test=g] is one of its cookies. *)
Definition spec_assignment_cookies (request : Request) : list string :=
  match cookie request with
  | None => []
  | Some header =>
      filter (λ g, ("cloudflare_ab_test=" +:+ g) ∈ spec_cookie_pairs header)
        ["control"; "variant"]
  end.

(** * Properties *)

(** ** JavaScript values *)

Lemma or_zero_Num (z : Z) : JS.or_zero (JS.Num z) = JS.Num z.
Proof. unfold JS.or_zero. destruct (Z.eqb_spec z 0); congruence. Qed.

Lemma or_zero_is_num (v : JS.value) : JS.is_num (JS.or_zero v).
Proof. destruct v as [| |z]; simpl; try (by eexists). destruct (z =? 0); by eexists. Qed.

Lemma Response_of_value_inj (a b : Z) :
  Fulfilled (Response_of_value (JS.Num a))
  = Fulfilled (Response_of_value (JS.Num b)) → a = b.
Proof. intros [= H]. by apply (inj pretty) in H. Qed.

(** ** The counter: one step at a time *)

Section CounterSteps.
Import Counter.

Lemma run_cons (e : event) (sch : list event) (s : system) :
  run (e :: sch) s = step e s ≫= run sch.
Proof. simpl. by destruct (step e s). Qed.

Lemma run_app (a b : list event) (s : system) :
  run (a ++ b) s = run a s ≫= run b.
Proof.
  revert s. induction a as [|e a IH]; intros s; simpl; [done|].
  destruct (step e s) as [s1|]; simpl; [apply IH | done].
Qed.

Lemma fetch_begin_increment (c : t) :
  fetch_begin "/increment" c =
  (AwaitPut (JS.pre_incr (value c)),
   {| value := JS.pre_incr (value c);
      storage := if storage_ok c then JS.pre_incr (value c) else storage c;
      storage_ok := storage_ok c; blocked := blocked c |}).
Proof. reflexivity. Qed.

Lemma fetch_begin_decrement (c : t) :
  fetch_begin "/decrement" c =
  (AwaitPut (JS.pre_decr (value c)),
   {| value := JS.pre_decr (value c);
      storage := if storage_ok c then JS.pre_decr (value c) else storage c;
      storage_ok := storage_ok c; blocked := blocked c |}).
Proof. reflexivity. Qed.

Lemma fetch_begin_value (c : t) :
  fetch_begin "/value" c = (Return (Response_of_value (value c)), c).
Proof. reflexivity. Qed.

End CounterSteps.
Section Tally.
Import Counter.


Lemma tally_deliver V k id s s' :
  tally V k s → step (Deliver id "/increment") s = Some s' →
  tally V (S k) s'.
Proof.
  intros (Hb & Hok & Hv & Hp & Hs & Hperm). unfold step.
  rewrite Hb. destruct (suspended s !! id) eqn:Hid; [done|].
  rewrite fetch_begin_increment, Hok, Hv. cbn [JS.pre_incr]. intros [= <-].
  unfold tally, persisted, returned; cbn [obj suspended settled value storage storage_ok blocked].
  replace (V + Z.of_nat k + 1) with (V + Z.of_nat (S k)) by lia.
  repeat split; auto using or_zero_Num.
  rewrite map_to_list_insert by done.
  rewrite seq_S, fmap_app. cbn [fmap list_fmap snd Nat.add].
  rewrite <- Hperm. unfold returned.
  rewrite <- app_assoc. apply Permutation_app_head.
  rewrite <- Permutation_cons_append. done.
Qed.

Lemma tally_put_done V k id s s' :
  tally V k s → step (PutDone id) s = Some s' → tally V k s'.
Proof.
  intros (Hb & Hok & Hv & Hp & Hs & Hperm). unfold step.
  destruct (suspended s !! id) as [cv|] eqn:Hid; [|done].
  intros [= <-].
  unfold tally, persisted, returned, fetch_resume in *;
    cbn [obj suspended settled value storage storage_ok blocked].
  rewrite Hok. repeat split; auto.
  rewrite <- Hperm, fmap_app. cbn [fmap list_fmap snd].
  rewrite <- (map_to_list_delete (suspended s) id cv) by done.
  rewrite <- app_assoc. cbn [fmap list_fmap snd app]. done.
Qed.

Lemma tally_run V sch : ∀ k s s',
  increments_only sch = true → tally V k s → run sch s = Some s' →
  tally V (k + calls "/increment" sch) s'.
Proof.
  induction sch as [|e sch IH]; intros k s s' Hall Ht Hrun; simpl in *.
  - injection Hrun as <-. by rewrite Nat.add_0_r.
  - apply andb_prop in Hall as [He Hall].
    destruct (step e s) as [s1|] eqn:Hstep; [|done].
    destruct e as [|id p|id]; [done| |].
    + apply String.eqb_eq in He as ->. simpl.
      replace (k + S (calls "/increment" sch))%nat
        with (S k + calls "/increment" sch)%nat by lia.
      apply (IH (S k) s1 s'); [done| |done].
      by apply (tally_deliver V k id s s1).
    + apply (IH k s1 s'); [done| |done].
      by apply (tally_put_done V k id s s1).
Qed.

Lemma tally_init V stored :
  JS.or_zero stored = JS.Num V →
  tally V 0 {| obj := init_done (constructor stored true);
               suspended := ∅; settled := [] |}.
Proof.
  intros HV. unfold tally, persisted, returned.
  cbn [obj suspended settled init_done constructor value storage storage_ok blocked].
  rewrite HV, Z.add_0_r, map_to_list_empty. repeat split; auto. lia.
Qed.

End Tally.
Section Completion.
Import Counter.

(** Every call in flight can be resumed, so every delivered call can
    complete. *)
Lemma suspended_calls_can_complete (s : system) :
  ∃ sch s', Forall (λ e, ∃ id, e = PutDone id) sch ∧
            run sch s = Some s' ∧ suspended s' = ∅ ∧ obj s' = obj s.
Proof.
  remember (size (suspended s)) as n eqn:Hn.
  revert s Hn. induction n as [|n IH]; intros s Hn.
  - exists [], s. symmetry in Hn. apply map_size_empty_iff in Hn. by repeat split.
  - destruct (map_choose (suspended s)) as (id & cv & Hid).
    { intros Hempty. rewrite Hempty, map_size_empty in Hn. done. }
    destruct (step (PutDone id) s) as [s1|] eqn:Hstep;
      [|unfold step in Hstep; rewrite Hid in Hstep; done].
    assert (Hs1 : suspended s1 = delete id (suspended s) ∧ obj s1 = obj s).
    { unfold step in Hstep. rewrite Hid in Hstep. by injection Hstep as <-. }
    destruct Hs1 as [Hs1 Ho1].
    destruct (IH s1) as (sch & s' & Hall & Hrun & Hdone & Ho).
    { rewrite Hs1, map_size_delete_Some; [lia | by eexists]. }
    exists (PutDone id :: sch), s'. repeat split; [|by rewrite run_cons, Hstep|done|congruence].
    constructor; [by eexists | done].
Qed.

End Completion.

(** C1. For every schedule of [N] concurrent [increment] calls on one
    counter initialized at [V] (any interleaving of their deliveries and
    resumptions, the storage accepting writes), once all calls have
    completed the persisted value is [V + N], and the responses are exactly
    those for [V + 1], ..., [V + N], each returned once, in whatever order
    the calls completed. *)
Theorem concurrent_increments_are_serialised
    (V : Z) (N : nat) (stored : JS.value)
    (sch : list Counter.event) (s' : Counter.system) :
  JS.or_zero stored = JS.Num V →
  Counter.increments_only sch = true →
  Counter.calls "/increment" sch = N →
  Counter.run (Counter.InitDone :: sch) (Counter.boot stored true) = Some s' →
  Counter.suspended s' = ∅ →
  Counter.persisted (Counter.obj s') = JS.Num (V + Z.of_nat N) ∧
  ((0 < N)%nat →
   Counter.storage (Counter.obj s') = JS.Num (V + Z.of_nat N)) ∧
  Counter.value (Counter.obj s') = JS.Num (V + Z.of_nat N) ∧
  Counter.returned s' ≡ₚ
    (λ j : nat, Fulfilled (Response_of_value (JS.Num (V + Z.of_nat j))))
      <$> seq 1 N ∧
  NoDup (Counter.returned s').
Proof.
  intros HV Hall HN Hrun Hdone. simpl in Hrun.
  pose proof (tally_run V sch 0 _ s' Hall (tally_init V stored HV) Hrun)
    as (_ & _ & Hv & Hp & Hs & Hperm).
  simpl in Hv, Hp, Hs, Hperm. rewrite HN in *.
  rewrite Hdone, map_to_list_empty in Hperm. simpl in Hperm.
  rewrite app_nil_r in Hperm.
  repeat split; try done.
  rewrite Hperm. apply NoDup_fmap_2; [|apply NoDup_seq].
  intros a b Hab. apply Response_of_value_inj in Hab. lia.
Qed.

Lemma concurrent_increments_are_serialised_witness :
  let sch := [Counter.Deliver 0 "/increment"; Counter.Deliver 1 "/increment";
              Counter.PutDone 1; Counter.Deliver 2 "/increment";
              Counter.PutDone 0; Counter.PutDone 2] in
  ∃ s', Counter.run (Counter.InitDone :: sch)
          (Counter.boot (JS.Num 4) true) = Some s' ∧
        Counter.suspended s' = ∅ ∧
        Counter.persisted (Counter.obj s') = JS.Num 7 ∧
        Counter.returned s' ≡ₚ
          [Fulfilled (Response_of_value (JS.Num 5));
           Fulfilled (Response_of_value (JS.Num 6));
           Fulfilled (Response_of_value (JS.Num 7))].
Proof.
  intros sch.
  destruct (Counter.run (Counter.InitDone :: sch)
              (Counter.boot (JS.Num 4) true)) as [s'|] eqn:Hrun;
    [|vm_compute in Hrun; discriminate].
  exists s'.
  assert (Hdone : Counter.suspended s' = ∅).
  { vm_compute in Hrun. injection Hrun as <-. reflexivity. }
  destruct (concurrent_increments_are_serialised 4 3 (JS.Num 4) sch s')
    as (Hp & _ & _ & Hperm & _); try reflexivity; try done.
Defined.

Section OwnValue.
Import Counter.

(** Events of other calls leave a suspended call, and the health of the
    storage, as they are. *)
Lemma step_other_call (id : nat) (e : event) (s s' : system) :
  concerns id e = false → step e s = Some s' →
  suspended s' !! id = suspended s !! id ∧
  storage_ok (obj s') = storage_ok (obj s).
Proof.
  intros Hne. destruct e as [|i p|i]; simpl in *.
  - destruct (blocked (obj s)); [|done]. by intros [= <-].
  - apply Nat.eqb_neq in Hne.
    destruct (blocked (obj s)); [done|].
    destruct (suspended s !! i); [done|].
    unfold fetch_begin.
    destruct (String.eqb p "/increment");
      [|destruct (String.eqb p "/decrement");
        [|destruct (String.eqb p "/value")]];
      intros [= <-]; simpl; by rewrite ?lookup_insert_ne.
  - apply Nat.eqb_neq in Hne.
    destruct (suspended s !! i); [|done]. intros [= <-]. simpl.
    by rewrite lookup_delete_ne.
Qed.

Lemma run_other_calls (id : nat) (sch : list event) : ∀ s s',
  forallb (λ e, negb (concerns id e)) sch = true → run sch s = Some s' →
  suspended s' !! id = suspended s !! id ∧
  storage_ok (obj s') = storage_ok (obj s).
Proof.
  induction sch as [|e sch IH]; intros s s' Hall Hrun.
  - by injection Hrun as <-.
  - cbn [forallb] in Hall. apply andb_prop in Hall as [He Hall].
    apply negb_true_iff in He.
    rewrite run_cons in Hrun.
    destruct (step e s) as [s1|] eqn:Hstep; [|done].
    destruct (step_other_call id e s s1 He Hstep) as [H1 H2].
    destruct (IH s1 s' Hall Hrun) as [H3 H4]. split; congruence.
Qed.

End OwnValue.

(** C2. An [increment] delivered to a counter holding [v] sets the
    in-memory value to [v + 1], writes [v + 1] to the storage, and, once
    its write has settled, returns [v + 1]: the value of this call, taken
    before the suspension, whatever the other calls [others] (increments,
    decrements, reads) did to the counter while it was suspended. *)
Theorem increment_returns_its_own_value
    (v : Z) (id : nat) (others : list Counter.event)
    (s s1 : Counter.system) :
  Counter.blocked (Counter.obj s) = false →
  Counter.storage_ok (Counter.obj s) = true →
  Counter.value (Counter.obj s) = JS.Num v →
  Counter.suspended s !! id = None →
  forallb (λ e, negb (Counter.concerns id e)) others = true →
  Counter.run (Counter.Deliver id "/increment" :: others) s = Some s1 →
  (∃ s0, Counter.step (Counter.Deliver id "/increment") s = Some s0 ∧
         Counter.value (Counter.obj s0) = JS.Num (v + 1) ∧
         Counter.storage (Counter.obj s0) = JS.Num (v + 1) ∧
         Counter.suspended s0 !! id = Some (JS.Num (v + 1))) ∧
  Counter.run (Counter.Deliver id "/increment" :: others ++
               [Counter.PutDone id]) s
  = Some {| Counter.obj := Counter.obj s1;
            Counter.suspended := delete id (Counter.suspended s1);
            Counter.settled :=
              Counter.settled s1 ++
              [(id, Fulfilled (Response_of_value (JS.Num (v + 1))))] |}.
Proof.
  intros Hb Hok Hv Hid Hothers Hrun.
  rewrite run_cons in Hrun.
  destruct (Counter.step (Counter.Deliver id "/increment") s) as [s0|] eqn:Hstep;
    [|done].
  simpl in Hrun.
  assert (Hs0 : Counter.value (Counter.obj s0) = JS.Num (v + 1) ∧
                Counter.storage (Counter.obj s0) = JS.Num (v + 1) ∧
                Counter.suspended s0 !! id = Some (JS.Num (v + 1)) ∧
                Counter.storage_ok (Counter.obj s0) = true).
  { unfold Counter.step in Hstep. rewrite Hb, Hid in Hstep.
    rewrite fetch_begin_increment, Hok, Hv in Hstep.
    injection Hstep as <-. cbn. by rewrite lookup_insert_eq. }
  destruct Hs0 as (Hv0 & Hst0 & Hid0 & Hok0).
  split; [by exists s0|].
  destruct (run_other_calls id others s0 s1 Hothers Hrun) as [Hid1 Hok1].
  rewrite app_comm_cons, run_app, run_cons, Hstep. cbn [mbind option_bind].
  rewrite Hrun. cbn [mbind option_bind Counter.run Counter.step].
  rewrite Hid1, Hid0. unfold Counter.fetch_resume.
  by rewrite Hok1, Hok0.
Qed.

Lemma increment_returns_its_own_value_witness :
  let s := {| Counter.obj := Counter.mk (JS.Num 4) (JS.Num 4) true false;
              Counter.suspended := ∅; Counter.settled := [] |} in
  let others := [Counter.Deliver 1 "/increment"; Counter.Deliver 2 "/decrement";
                 Counter.PutDone 2; Counter.Deliver 3 "/increment";
                 Counter.PutDone 1] in
  ∃ s2, Counter.run (Counter.Deliver 0 "/increment" :: others ++
                     [Counter.PutDone 0]) s = Some s2 ∧
        Counter.value (Counter.obj s2) = JS.Num 6 ∧
        last (Counter.settled s2) =
          Some (0%nat, Fulfilled (Response_of_value (JS.Num 5))).
Proof.
  intros s others.
  destruct (Counter.run (Counter.Deliver 0 "/increment" :: others) s)
    as [s1|] eqn:Hrun; [|vm_compute in Hrun; discriminate].
  destruct (increment_returns_its_own_value 4 0 others s s1) as [_ H];
    try reflexivity; try done.
  eexists. split; [exact H|].
  vm_compute in Hrun. injection Hrun as <-. split; reflexivity.
Defined.

Section Loading.
Import Counter.

Lemma run_reads (c : t) (ids : list nat) : ∀ l,
  blocked c = false →
  run (reads ids) {| obj := c; suspended := ∅; settled := l |}
  = Some {| obj := c; suspended := ∅;
            settled :=
              l ++ ((λ id, (id, Fulfilled (Response_of_value (value c))))
                      <$> ids) |}.
Proof.
  intros l Hb. revert l.
  induction ids as [|id ids IH]; intros l.
  - simpl. by rewrite app_nil_r.
  - change (reads (id :: ids)) with (Deliver id "/value" :: reads ids).
    rewrite run_cons. unfold step. cbn [obj suspended settled].
    rewrite Hb, lookup_empty, fetch_begin_value. cbn [mbind option_bind].
    rewrite IH, <- app_assoc. done.
Qed.

Lemma run_init (stored : JS.value) (ok : bool) (sch : list event) :
  run (InitDone :: sch) (boot stored ok)
  = run sch {| obj := mk (JS.or_zero stored) stored ok false;
               suspended := ∅; settled := [] |}.
Proof. reflexivity. Qed.

Lemma pre_incr_is_num v : JS.is_num v → JS.is_num (JS.pre_incr v).
Proof. intros [z ->]. by eexists. Qed.

Lemma pre_decr_is_num v : JS.is_num v → JS.is_num (JS.pre_decr v).
Proof. intros [z ->]. by eexists. Qed.

Lemma loaded_before_use_step (e : event) (s s' : system) :
  loaded_before_use s → step e s = Some s' → loaded_before_use s'.
Proof.
  unfold loaded_before_use, returned.
  intros Hs Hstep. destruct e as [|id p|id]; unfold step in Hstep.
  - destruct (blocked (obj s)) eqn:Hb; [|done]. injection Hstep as <-.
    destruct Hs as [(_ & Hsus & Hset)|(Hb' & _)]; [|congruence].
    right. cbn [obj suspended settled init_done blocked value].
    rewrite Hsus, Hset.
    repeat split; auto using or_zero_is_num; apply map_Forall_empty.
  - destruct (blocked (obj s)) eqn:Hb; [done|].
    destruct Hs as [(Hb' & _)|(_ & Hv & Hsus & Hset)]; [congruence|].
    right. destruct (suspended s !! id) eqn:Hid; [done|].
    unfold fetch_begin in Hstep.
    destruct (String.eqb p "/increment");
      [|destruct (String.eqb p "/decrement");
        [|destruct (String.eqb p "/value")]];
      injection Hstep as <-;
      cbn [obj suspended settled storage_put set_value blocked value];
      repeat split; auto using pre_incr_is_num, pre_decr_is_num.
    + apply map_Forall_insert_2; auto using pre_incr_is_num.
    + apply map_Forall_insert_2; auto using pre_decr_is_num.
    + rewrite fmap_app. apply Forall_app. split; [done|].
      constructor; [|constructor]. cbn [snd after_loading].
      destruct Hv as [z ->]. left. by exists z.
    + rewrite fmap_app. apply Forall_app. split; [done|].
      constructor; [|constructor]. cbn [snd after_loading status]. by right.
  - destruct (suspended s !! id) as [cv|] eqn:Hid; [|done].
    injection Hstep as <-.
    destruct Hs as [(_ & Hsus & _)|(Hb & Hv & Hsus & Hset)].
    { by rewrite Hsus, lookup_empty in Hid. }
    right. cbn [obj suspended settled]. repeat split; auto.
    + by apply map_Forall_delete.
    + rewrite fmap_app. apply Forall_app. split; [done|].
      constructor; [|constructor]. unfold fetch_resume.
      destruct (storage_ok (obj s)); cbn [snd after_loading]; [|done].
      destruct (Hsus id cv Hid) as [z ->]. left. by exists z.
Qed.

Lemma loaded_before_use_run (sch : list event) : ∀ s s',
  loaded_before_use s → run sch s = Some s' → loaded_before_use s'.
Proof.
  induction sch as [|e sch IH]; intros s s' Hs Hrun.
  - by injection Hrun as <-.
  - rewrite run_cons in Hrun.
    destruct (step e s) as [s1|] eqn:Hstep; [|done].
    eauto using loaded_before_use_step.
Qed.

End Loading.

(** C3. A counter constructed over a storage that holds [K] answers [K]
    to every read made before any mutation, and [0] when nothing is
    stored.  No request is delivered while the constructor's callback is
    loading the value, so every call, in every schedule, works on a
    number and none sees the value from before the load. *)
Theorem counter_starts_from_persisted_value
    (K : Z) (ok : bool) (ids : list nat) :
  Counter.run (Counter.InitDone :: Counter.reads ids)
    (Counter.boot (JS.Num K) ok)
  = Some {| Counter.obj := Counter.mk (JS.Num K) (JS.Num K) ok false;
            Counter.suspended := ∅;
            Counter.settled :=
              (λ id, (id, Fulfilled (Response_of_value (JS.Num K)))) <$> ids |}
  ∧ Counter.run (Counter.InitDone :: Counter.reads ids)
      (Counter.boot JS.Undefined ok)
    = Some {| Counter.obj := Counter.mk (JS.Num 0) JS.Undefined ok false;
              Counter.suspended := ∅;
              Counter.settled :=
                (λ id, (id, Fulfilled (Response_of_value (JS.Num 0)))) <$> ids |}
  ∧ (∀ stored id p sch,
       Counter.run (Counter.Deliver id p :: sch) (Counter.boot stored ok)
       = None)
  ∧ (∀ stored sch s',
       Counter.run sch (Counter.boot stored ok) = Some s' →
       Counter.loaded_before_use s' ∧
       Forall Counter.after_loading (Counter.returned s')).
Proof.
  split; [|split; [|split]].
  - rewrite run_init, or_zero_Num. by rewrite run_reads.
  - rewrite run_init. by rewrite run_reads.
  - intros stored id p sch. reflexivity.
  - intros stored sch s' Hrun.
    assert (H : Counter.loaded_before_use s').
    { eapply loaded_before_use_run; [|exact Hrun]. by left. }
    split; [done|].
    destruct H as [(_ & _ & H)|(_ & _ & _ & H)]; [|done].
    unfold Counter.returned. rewrite H. constructor.
Qed.

Lemma counter_starts_from_persisted_value_witness :
  Counter.run [Counter.InitDone; Counter.Deliver 0 "/value";
               Counter.Deliver 1 "/value"] (Counter.boot (JS.Num 7) true)
  = Some {| Counter.obj := Counter.mk (JS.Num 7) (JS.Num 7) true false;
            Counter.suspended := ∅;
            Counter.settled :=
              [(0%nat, Fulfilled (Response_of_value (JS.Num 7)));
               (1%nat, Fulfilled (Response_of_value (JS.Num 7)))] |}
  ∧ Forall Counter.after_loading
      [Fulfilled (Response_of_value (JS.Num 8));
       Fulfilled (Response_of_value (JS.Num 8))].
Proof.
  destruct (counter_starts_from_persisted_value 7 true [0; 1]%nat)
    as (H1 & _ & _ & H4).
  split; [exact H1|].
  apply (H4 (JS.Num 7)
           [Counter.InitDone; Counter.Deliver 0 "/increment";
            Counter.PutDone 0; Counter.Deliver 1 "/value"]
           {| Counter.obj := Counter.mk (JS.Num 8) (JS.Num 8) true false;
              Counter.suspended := ∅;
              Counter.settled :=
                [(0%nat, Fulfilled (Response_of_value (JS.Num 8)));
                 (1%nat, Fulfilled (Response_of_value (JS.Num 8)))] |}).
  reflexivity.
Defined.

Section Balance.
Import Counter.

Lemma step_value (e : event) (s s' : system) (z : Z) :
  blocked (obj s) = false → value (obj s) = JS.Num z →
  step e s = Some s' →
  blocked (obj s') = false ∧
  value (obj s') =
    JS.Num (z + Z.of_nat (calls "/increment" [e])
              - Z.of_nat (calls "/decrement" [e])).
Proof.
  intros Hb Hv Hstep. destruct e as [|id p|id]; unfold step in Hstep.
  - by rewrite Hb in Hstep.
  - rewrite Hb in Hstep. destruct (suspended s !! id); [done|].
    unfold fetch_begin in Hstep. cbn [calls].
    destruct (String.eqb_spec p "/increment") as [->|_].
    { injection Hstep as <-.
      cbn [obj value blocked storage_put set_value]. rewrite Hv. cbn.
      split; [done|]. f_equal. lia. }
    destruct (String.eqb_spec p "/decrement") as [->|_].
    { injection Hstep as <-.
      cbn [obj value blocked storage_put set_value]. rewrite Hv. cbn.
      split; [done|]. f_equal. lia. }
    destruct (String.eqb p "/value"); injection Hstep as <-;
      cbn [obj value blocked]; rewrite Hv; cbn;
      (split; [done|]); f_equal; lia.
  - destruct (suspended s !! id); [|done]. injection Hstep as <-.
    cbn [obj value blocked calls]. rewrite Hv. cbn.
    split; [done|]. f_equal; lia.
Qed.

Lemma calls_cons (p : string) (e : event) (sch : list event) :
  calls p (e :: sch) = (calls p [e] + calls p sch)%nat.
Proof. destruct e; simpl; lia. Qed.

Lemma run_value (sch : list event) : ∀ s s' z,
  blocked (obj s) = false → value (obj s) = JS.Num z →
  run sch s = Some s' →
  blocked (obj s') = false ∧
  value (obj s') =
    JS.Num (z + Z.of_nat (calls "/increment" sch)
              - Z.of_nat (calls "/decrement" sch)).
Proof.
  induction sch as [|e sch IH]; intros s s' z Hb Hv Hrun.
  - injection Hrun as <-. simpl. rewrite Hv. split; [done|]. f_equal; lia.
  - rewrite run_cons in Hrun.
    destruct (step e s) as [s1|] eqn:Hstep; [|done].
    destruct (step_value e s s1 z Hb Hv Hstep) as [Hb1 Hv1].
    destruct (IH s1 s' _ Hb1 Hv1 Hrun) as [Hb' Hv'].
    split; [done|]. rewrite Hv'.
    rewrite (calls_cons "/increment" e sch), (calls_cons "/decrement" e sch).
    f_equal. lia.
Qed.

End Balance.

(** C9, as the code has it.  After initialization the value of a counter
    is an integer at all times: over a storage that loads as [V], after
    any schedule it is [V] plus the increments minus the decrements
    delivered so far, each event moving it by at most one.  It does not
    drop below zero as long as no decrement is delivered to a counter
    that started at a non-negative value; nothing stops a decrement at
    zero. *)
Theorem counter_value_is_start_plus_increments_minus_decrements
    (V : Z) (stored : JS.value) (ok : bool)
    (sch : list Counter.event) (s' : Counter.system) :
  JS.or_zero stored = JS.Num V →
  Counter.run (Counter.InitDone :: sch) (Counter.boot stored ok) = Some s' →
  Counter.value (Counter.obj s') =
    JS.Num (V + Z.of_nat (Counter.calls "/increment" sch)
              - Z.of_nat (Counter.calls "/decrement" sch))
  ∧ (0 ≤ V → Counter.calls "/decrement" sch = 0%nat →
     ∃ z, Counter.value (Counter.obj s') = JS.Num z ∧ 0 ≤ z)
  ∧ (∀ e s'', Counter.step e s' = Some s'' →
       ∃ z z', Counter.value (Counter.obj s') = JS.Num z ∧
               Counter.value (Counter.obj s'') = JS.Num z' ∧
               -1 ≤ z' - z ≤ 1).
Proof.
  intros HV Hrun. rewrite run_init in Hrun.
  apply (run_value sch _ s' V) in Hrun; [|reflexivity|exact HV].
  destruct Hrun as [Hb Hv].
  split; [done|]. split.
  - intros HV0 Hdec. eexists. split; [exact Hv|]. lia.
  - intros e s'' Hstep.
    destruct (step_value e s' s'' _ Hb Hv Hstep) as [_ Hv''].
    eexists _, _. split; [exact Hv|]. split; [exact Hv''|].
    destruct e as [|id p|id]; simpl; try lia.
    destruct (String.eqb_spec p "/increment") as [->|_]; simpl; [lia|].
    destruct (String.eqb p "/decrement"); simpl; lia.
Qed.

Lemma counter_value_is_start_plus_increments_minus_decrements_witness :
  let sch := [Counter.Deliver 0 "/increment"; Counter.Deliver 1 "/decrement";
              Counter.Deliver 2 "/decrement"; Counter.PutDone 1;
              Counter.Deliver 3 "/value"] in
  ∃ s', Counter.run (Counter.InitDone :: sch)
          (Counter.boot (JS.Num 3) true) = Some s' ∧
        Counter.value (Counter.obj s') = JS.Num (3 + 1 - 2).
Proof.
  intros sch.
  destruct (Counter.run (Counter.InitDone :: sch)
              (Counter.boot (JS.Num 3) true)) as [s'|] eqn:Hrun;
    [|vm_compute in Hrun; discriminate].
  exists s'. split; [done|].
  destruct (counter_value_is_start_plus_increments_minus_decrements
              3 (JS.Num 3) true sch s') as [H _]; [reflexivity|exact Hrun|].
  exact H.
Defined.

(** C9, as the specification states it, fails: a decrement delivered to a
    new counter, whose storage is empty, takes the value to [-1]. *)
Lemma decrement_of_new_counter_is_negative :
  ¬ Counter.never_negative JS.Undefined.
Proof.
  intros H.
  destruct (H [Counter.Deliver 0 "/decrement"; Counter.PutDone 0] _ eq_refl)
    as (z & Hz & Hpos).
  simpl in Hz. injection Hz as <-. lia.
Qed.

(** ** Complete schedules exist *)

Section Existence.
Import Counter.

Lemma calls_app (p : string) (a b : list event) :
  calls p (a ++ b) = (calls p a + calls p b)%nat.
Proof.
  induction a as [|e a IH]; [done|].
  rewrite <- app_comm_cons, (calls_cons p e (a ++ b)), (calls_cons p e a), IH.
  lia.
Qed.

(** For every [N] there are complete schedules of [N] increment calls:
    the calls can, for one, run one after the other. *)
Lemma complete_increment_schedules_exist (stored : JS.value) (N : nat) :
  ∃ sch s', increments_only sch = true ∧ calls "/increment" sch = N ∧
            run (InitDone :: sch) (boot stored true) = Some s' ∧
            suspended s' = ∅.
Proof.
  destruct (or_zero_is_num stored) as [V HV].
  induction N as [|N (sch & s' & Hall & Hcalls & Hrun & Hdone)].
  - exists [], {| obj := init_done (constructor stored true);
                  suspended := ∅; settled := [] |}. by repeat split.
  - rewrite run_init in Hrun.
    pose proof (tally_run V sch 0 _ s' Hall (tally_init V stored HV) Hrun)
      as (Hb & Hok & _).
    exists (sch ++ [Deliver N "/increment"; PutDone N]).
    eexists. split; [|split; [|split]].
    + unfold increments_only in *. rewrite forallb_app, Hall. reflexivity.
    + rewrite calls_app, Hcalls. simpl. lia.
    + rewrite run_init, run_app, Hrun. cbn [mbind option_bind].
      rewrite run_cons. unfold step at 1.
      rewrite Hb, Hdone, lookup_empty, fetch_begin_increment.
      cbn [mbind option_bind]. rewrite run_cons. unfold step.
      cbn [suspended]. rewrite lookup_insert_eq. reflexivity.
    + cbn [suspended]. by rewrite delete_insert_eq, delete_empty.
Qed.

End Existence.

(** ** The counter namespace *)

Lemma ready_not_blocked (c : Counter.t) : Counter.blocked (ready c) = false.
Proof. unfold ready. by destruct (Counter.blocked c) eqn:H. Qed.

Lemma ready_ready (c : Counter.t) : ready (ready c) = ready c.
Proof. unfold ready at 1. by rewrite ready_not_blocked. Qed.

Lemma ready_storage_ok (c : Counter.t) :
  Counter.storage_ok (ready c) = Counter.storage_ok c.
Proof. unfold ready. by destruct (Counter.blocked c). Qed.

Lemma COUNTER_get_insert (key : string) (c : Counter.t) (w : World) :
  COUNTER_get key (<[key := c]> w) = c.
Proof. unfold COUNTER_get. by rewrite lookup_insert_eq. Qed.

Lemma COUNTER_get_insert_ne (key k : string) (c : Counter.t) (w : World) :
  key ≠ k → COUNTER_get k (<[key := c]> w) = COUNTER_get k w.
Proof. intros. unfold COUNTER_get. by rewrite lookup_insert_ne. Qed.

(** An increment request to the object named [key]: its counter reads one
    more, the new value is in its storage if the storage accepts writes,
    no other object changes, and the call fails exactly when the storage
    rejects the write. *)
Lemma incrementCounter_spec (key : string) (w : World) :
  ∃ w', incrementCounter key w =
          (if healthy key w
           then Fulfilled (JS.body_text (JS.pre_incr (reading key w)))
           else Rejected StorageFailure, w') ∧
        reading key w' = JS.pre_incr (reading key w) ∧
        healthy key w' = healthy key w ∧
        (healthy key w = true →
         Counter.storage (COUNTER_get key w') = JS.pre_incr (reading key w)) ∧
        (∀ k, k ≠ key → w' !! k = w !! k).
Proof.
  unfold incrementCounter, await, stub_fetch, stub_pathname, Counter.fetch.
  change ("/" +:+ "increment") with "/increment".
  rewrite fetch_begin_increment. unfold Counter.fetch_resume, healthy, reading.
  cbn [Counter.storage_ok]. rewrite ready_storage_ok.
  set (c' := Counter.mk _ _ _ _).
  exists (<[key := c']> w). split; [|split; [|split; [|split]]].
  - destruct (Counter.storage_ok (COUNTER_get key w)); reflexivity.
  - rewrite COUNTER_get_insert. unfold ready at 1. subst c'.
    cbn [Counter.blocked Counter.value]. by rewrite ready_not_blocked.
  - rewrite COUNTER_get_insert. reflexivity.
  - intros Hok. rewrite COUNTER_get_insert. subst c'.
    cbn [Counter.storage]. by rewrite Hok.
  - intros k Hk. by rewrite lookup_insert_ne.
Qed.

(** A value request to the object named [key]: the text of its reading;
    no reading changes. *)
Lemma getCounterValue_spec (key : string) (w : World) :
  ∃ w', getCounterValue key w = (Fulfilled (JS.body_text (reading key w)), w') ∧
        ∀ k, reading k w' = reading k w.
Proof.
  unfold getCounterValue, await, stub_fetch, stub_pathname, Counter.fetch.
  change ("/" +:+ "value") with "/value".
  rewrite fetch_begin_value. eexists. split; [reflexivity|].
  intros k. unfold reading. destruct (decide (key = k)) as [->|Hne].
  - by rewrite COUNTER_get_insert, ready_ready.
  - by rewrite COUNTER_get_insert_ne.
Qed.

(** ** The entry path *)

Section Entry.
Variable origin : Request → Response.

Lemma handleRequest_entry_control random request w :
  pathname (url request) = BASE_PATH → hasControlCookie request = true →
  handleRequest origin random request w = (Fulfilled (origin request), w).
Proof.
  intros Hpath Hc. unfold handleRequest. rewrite Hpath, Hc. reflexivity.
Qed.

Lemma handleRequest_entry_variant random request w :
  pathname (url request) = BASE_PATH → hasControlCookie request = false →
  hasVariantCookie request = true →
  handleRequest origin random request w
  = (Fulfilled (origin {| url := set_pathname VARIANT_PATH (url request);
                          cookie := cookie request |}), w).
Proof.
  intros Hpath Hc Hv. unfold handleRequest. rewrite Hpath, Hc, Hv. reflexivity.
Qed.

Lemma handleRequest_entry_new random request w :
  pathname (url request) = BASE_PATH → assigned_group request = None →
  let group := choose_group random in
  handleRequest origin random request w
  = (Fulfilled
       (setAbTestCookie
          (origin {| url := set_pathname (group_page group) (url request);
                     cookie := cookie request |}) group),
     snd (incrementCounter (show_counter group) w)).
Proof.
  intros Hpath Hnone group. unfold assigned_group in Hnone.
  destruct (hasControlCookie request) eqn:Hc; [done|].
  destruct (hasVariantCookie request) eqn:Hv; [done|].
  unfold handleRequest. rewrite Hpath, Hc, Hv.
  change (String.eqb BASE_PATH BASE_PATH) with true. cbv iota.
  fold group. unfold show_counter, group_page.
  destruct (String.eqb group "variant"); reflexivity.
Qed.

End Entry.

Lemma choose_group_cases (random : Q) :
  (choose_group random = "variant" ∧ (random < 1 # 2)%Q) ∨
  (choose_group random = "control" ∧ ¬ (random < 1 # 2)%Q).
Proof.
  unfold choose_group. rewrite Qlt_alt.
  destruct (random ?= 1 # 2)%Q; [right|left|right]; by split.
Qed.

Lemma filter_all {A} (P : A → Prop) `{!∀ x, Decision (P x)} (l : list A) :
  Forall P l → filter P l = l.
Proof.
  induction 1 as [|x l Hx _ IH]; [done|].
  by rewrite filter_cons_True, IH.
Qed.

Lemma filter_none {A} (P : A → Prop) `{!∀ x, Decision (P x)} (l : list A) :
  Forall (λ x, ¬ P x) l → filter P l = [].
Proof.
  induction 1 as [|x l Hx _ IH]; [done|].
  by rewrite filter_cons_False, IH.
Qed.

Lemma choose_group_draw (n k : nat) :
  choose_group (draw (S n) k) = if decide (k < 2 ^ n)%nat then "variant" else "control".
Proof.
  unfold choose_group, draw, Qcompare. cbn [Qnum Qden].
  assert (Hpow : (2 ^ S n = 2 * 2 ^ n)%nat) by (simpl; lia).
  assert (Hpos : (0 < 2 ^ n)%nat) by (apply Nat.neq_0_lt_0, Nat.pow_nonzero; lia).
  assert (Hden : Z.pos (Pos.of_nat (2 ^ S n)) = 2 * Z.of_nat (2 ^ n)).
  { rewrite <- (Nat2Z.inj_mul 2), <- Hpow.
    rewrite <- positive_nat_Z, Nat2Pos.id; [done | lia]. }
  rewrite Hden. change (Z.pos 2) with 2. clear Hpow Hpos Hden.
  generalize (2 ^ n)%nat. intros m.
  destruct (Z.compare_spec (Z.of_nat k * 2) (1 * (2 * Z.of_nat m)));
    case_decide; first [done | lia].
Qed.

(** Of the [2 ^ (n + 1)] draws, the lower half chooses the variant and the
    upper half the control group. *)
Lemma draws_are_split_evenly (n : nat) :
  draws_choosing "variant" (S n) = seq 0 (2 ^ n) ∧
  draws_choosing "control" (S n) = seq (2 ^ n) (2 ^ n).
Proof.
  unfold draws_choosing.
  assert (Hpow : (2 ^ S n = 2 ^ n + 2 ^ n)%nat) by (simpl; lia).
  rewrite Hpow, seq_app, !filter_app. cbn [Nat.add].
  split.
  - rewrite filter_all, filter_none, app_nil_r; [done| |].
    + apply Forall_forall. intros k Hk%elem_of_seq.
      rewrite choose_group_draw. case_decide; [lia | done].
    + apply Forall_forall. intros k Hk%elem_of_seq.
      rewrite choose_group_draw. case_decide; [done | lia].
  - rewrite filter_none, filter_all; [done| |].
    + apply Forall_forall. intros k Hk%elem_of_seq.
      rewrite choose_group_draw. case_decide; [lia | done].
    + apply Forall_forall. intros k Hk%elem_of_seq.
      rewrite choose_group_draw. case_decide; [done | lia].
Qed.

(** A request to the entry path in whose cookie header the handler
    finds no assignment is put in the variant group when the draw is
    below one half and in the control group otherwise (of [2 ^ (n + 1)]
    equally likely draws, one half each); the show counter of the chosen
    group is incremented once, in memory and, if the storage accepts the
    write, in the storage, and no other counter changes; the response is
    the page of the group, with one more [Set-Cookie] header that assigns
    [cloudflare_ab_test] to the group, whose only attribute is [path=/]:
    no expiry is set. *)
Lemma new_visitor_is_assigned_and_counted_once
    (origin : Request → Response) (random : Q) (request : Request) (w : World) :
  pathname (url request) = BASE_PATH →
  assigned_group request = None →
  let group := choose_group random in
  ((group = "variant" ∧ (random < 1 # 2)%Q) ∨
   (group = "control" ∧ ¬ (random < 1 # 2)%Q)) ∧
  (∀ n, draws_choosing "variant" (S n) = seq 0 (2 ^ n) ∧
        draws_choosing "control" (S n) = seq (2 ^ n) (2 ^ n) ∧
        length (draws_choosing "variant" (S n)) = (2 ^ n)%nat ∧
        length (draws_choosing "control" (S n)) = (2 ^ n)%nat) ∧
  ∃ w',
    handleRequest origin random request w
    = (Fulfilled
         (append_header "Set-Cookie"
            ("cloudflare_ab_test=" +:+ group +:+ "; path=/")
            (origin {| url := set_pathname (group_page group) (url request);
                       cookie := cookie request |})),
       w') ∧
    reading (show_counter group) w'
    = JS.pre_incr (reading (show_counter group) w) ∧
    (∀ v, reading (show_counter group) w = JS.Num v →
          reading (show_counter group) w' = JS.Num (v + 1) ∧
          (healthy (show_counter group) w = true →
           Counter.storage (COUNTER_get (show_counter group) w')
           = JS.Num (v + 1))) ∧
    (∀ key, key ≠ show_counter group → w' !! key = w !! key) ∧
    cookie_pair ("cloudflare_ab_test=" +:+ group +:+ "; path=/")
    = "cloudflare_ab_test=" +:+ group ∧
    cookie_attributes ("cloudflare_ab_test=" +:+ group +:+ "; path=/")
    = [" path=/"].
Proof.
  intros Hpath Hnone group.
  split; [apply choose_group_cases|]. split.
  { intros n. destruct (draws_are_split_evenly n) as [-> ->].
    by rewrite !length_seq. }
  destruct (incrementCounter_spec (show_counter group) w)
    as (w' & Hinc & Hread & _ & Hst & Hothers).
  exists w'. split; [|split; [|split; [|split]]].
  - rewrite (handleRequest_entry_new origin random request w Hpath Hnone).
    fold group. rewrite Hinc. reflexivity.
  - exact Hread.
  - intros v Hv. split; [by rewrite Hread, Hv|].
    intros Hok. by rewrite (Hst Hok), Hv.
  - exact Hothers.
  - destruct (choose_group_cases random) as [[Hg _]|[Hg _]];
      fold group in Hg; rewrite Hg; split; reflexivity.
Qed.


(** ** The action path *)

Section Action.
Variable origin : Request → Response.

Lemma handleRequest_action_not_due random request w :
  pathname (url request) = ACTION_PATH →
  assigned_group request = None ∨ actionNotCountedCookie request = false →
  handleRequest origin random request w = (Fulfilled action_redirect, w).
Proof.
  intros Hpath Hnot. unfold handleRequest, assigned_group in *. rewrite Hpath.
  change (String.eqb ACTION_PATH BASE_PATH) with false.
  change (String.eqb ACTION_PATH ACTION_PATH) with true. cbv iota.
  destruct (hasControlCookie request), (hasVariantCookie request),
    (actionNotCountedCookie request); try reflexivity;
    destruct Hnot; discriminate.
Qed.

Lemma handleRequest_action_due random request w g :
  pathname (url request) = ACTION_PATH →
  assigned_group request = Some g →
  actionNotCountedCookie request = true →
  handleRequest origin random request w
  = match incrementCounter (action_counter g) w with
    | (Fulfilled _, w') =>
        (Fulfilled (setActionCountedCookie action_redirect), w')
    | (Rejected e, w') => (Rejected e, w')
    end.
Proof.
  intros Hpath Hg Hdue. unfold handleRequest, assigned_group in *.
  rewrite Hpath, Hdue.
  change (String.eqb ACTION_PATH BASE_PATH) with false.
  change (String.eqb ACTION_PATH ACTION_PATH) with true. cbv iota.
  unfold await.
  destruct (hasControlCookie request).
  { injection Hg as <-. cbn [andb action_counter String.eqb].
    change (action_counter "control") with COUNTER_CONTROL_ACTION.
    by destruct (incrementCounter COUNTER_CONTROL_ACTION w) as [[]]. }
  destruct (hasVariantCookie request); [|done].
  injection Hg as <-. cbn [andb].
  change (action_counter "variant") with COUNTER_VARIANT_ACTION.
  by destruct (incrementCounter COUNTER_VARIANT_ACTION w) as [[]].
Qed.

End Action.

Lemma carries_counted_cookie (request : Request) :
  carries request "cloudflare_ab_test_counted=true" →
  actionNotCountedCookie request = false.
Proof.
  intros (c & Hc & Hinc). unfold actionNotCountedCookie.
  rewrite Hc, Hinc. apply andb_false_r.
Qed.

(** A visitor whom the handler finds assigned to a group and who
    requests the action path, not yet counted, has the action counter of
    that group incremented once (no other counter changes) and receives
    the redirect with the dedup cookie; a second request that carries
    that cookie changes no counter and still receives the redirect. *)
Lemma action_is_counted_once_per_visitor
    (origin : Request → Response) (random1 : Q) (request1 : Request)
    (w : World) (g : string) :
  pathname (url request1) = ACTION_PATH →
  assigned_group request1 = Some g →
  actionNotCountedCookie request1 = true →
  healthy (action_counter g) w = true →
  ∃ response1 w1,
    handleRequest origin random1 request1 w = (Fulfilled response1, w1) ∧
    response1 = setActionCountedCookie action_redirect ∧
    set_cookies response1 = ["cloudflare_ab_test_counted=true; path=/"] ∧
    reading (action_counter g) w1
    = JS.pre_incr (reading (action_counter g) w) ∧
    (∀ v, reading (action_counter g) w = JS.Num v →
          reading (action_counter g) w1 = JS.Num (v + 1) ∧
          Counter.storage (COUNTER_get (action_counter g) w1)
          = JS.Num (v + 1)) ∧
    (∀ key, key ≠ action_counter g → w1 !! key = w !! key) ∧
    ∀ random2 request2,
      pathname (url request2) = ACTION_PATH →
      (∀ set_cookie, set_cookie ∈ set_cookies response1 →
                     carries request2 (cookie_pair set_cookie)) →
      handleRequest origin random2 request2 w1 = (Fulfilled action_redirect, w1).
Proof.
  intros Hpath Hg Hdue Hok.
  destruct (incrementCounter_spec (action_counter g) w)
    as (w1 & Hinc & Hread & _ & Hst & Hothers).
  rewrite Hok in Hinc.
  exists (setActionCountedCookie action_redirect), w1.
  split; [|split; [|split; [|split; [|split; [|split]]]]]; try done.
  - rewrite (handleRequest_action_due origin random1 request1 w g); try done.
    by rewrite Hinc.
  - intros v Hv. by rewrite Hread, (Hst Hok), Hv.
  - intros random2 request2 Hpath2 Hcarries.
    apply handleRequest_action_not_due; [done|]. right.
    apply carries_counted_cookie.
    apply (Hcarries "cloudflare_ab_test_counted=true; path=/").
    apply list_elem_of_singleton. reflexivity.
Qed.


(** ** The result path *)

Lemma handleRequest_result
    (origin : Request → Response) (random : Q) (request : Request) (w : World) :
  pathname (url request) = RESULT_PATH →
  ∃ w', handleRequest origin random request w
        = (Fulfilled (result_response w), w') ∧
        ∀ key, reading key w' = reading key w.
Proof.
  intros Hpath. unfold handleRequest. rewrite Hpath.
  change (String.eqb RESULT_PATH BASE_PATH) with false.
  change (String.eqb RESULT_PATH ACTION_PATH) with false.
  change (String.eqb RESULT_PATH RESULT_PATH) with true. cbv iota.
  unfold await.
  destruct (getCounterValue_spec COUNTER_CONTROL_SHOW w) as (w1 & -> & R1).
  destruct (getCounterValue_spec COUNTER_CONTROL_ACTION w1) as (w2 & -> & R2).
  destruct (getCounterValue_spec COUNTER_VARIANT_SHOW w2) as (w3 & -> & R3).
  destruct (getCounterValue_spec COUNTER_VARIANT_ACTION w3) as (w4 & -> & R4).
  exists w4. split.
  - unfold resolve, result_response. by rewrite R3, !R2, !R1.
  - intros key. by rewrite R4, R3, R2, R1.
Qed.

(** C7, as the code has it.  With [controlShow = 5], [controlAction = 2],
    [variantShow = 7], [variantAction = 3] as the prior state, the result
    path answers with a JSON object of exactly these four fields, in this
    order, whose values are the counters as strings ("5", "2", "7", "3"),
    written with an indentation of two spaces; the counters are left as
    they are. *)
Theorem result_reports_the_counters_as_strings
    (origin : Request → Response) (random : Q) (request : Request) :
  pathname (url request) = RESULT_PATH →
  ∃ w', handleRequest origin random request prior_state
        = (Fulfilled
             {| status := 200;
                headers := [("content-type", "application/json;charset=UTF-8")];
                body := JSON.stringify2 string_result |}, w') ∧
        string_result
        = JSON.Obj [("controlShow", JSON.Str "5");
                    ("controlAction", JSON.Str "2");
                    ("variantShow", JSON.Str "7");
                    ("variantAction", JSON.Str "3")] ∧
        JSON.stringify2 string_result = prior_state_text ∧
        ∀ key, reading key w' = reading key prior_state.
Proof.
  intros Hpath.
  destruct (handleRequest_result origin random request prior_state Hpath)
    as (w' & Hres & Hread).
  exists w'. repeat split; [|exact Hread].
  rewrite Hres. reflexivity.
Qed.

Lemma result_reports_the_counters_as_strings_witness :
  ∃ w', handleRequest echo_origin 0 (request_to RESULT_PATH None) prior_state
        = (Fulfilled
             {| status := 200;
                headers := [("content-type", "application/json;charset=UTF-8")];
                body := prior_state_text |}, w').
Proof.
  destruct (result_reports_the_counters_as_strings
              echo_origin 0 (request_to RESULT_PATH None) eq_refl)
    as (w' & Hres & _ & Htext & _).
  exists w'. rewrite <- Htext. exact Hres.
Defined.

(** C7, as the specification states it, fails: the body of the response
    is not the object with the integer fields 5, 2, 7 and 3, neither
    in compact nor in indented form. *)
Lemma result_fields_are_not_integers :
  ¬ (∃ response w',
       handleRequest echo_origin 0 (request_to RESULT_PATH None) prior_state
       = (Fulfilled response, w') ∧
       (body response = JSON.stringify integer_result ∨
        body response = JSON.stringify2 integer_result)).
Proof.
  intros (response & w' & Hres & Hbody).
  destruct (handleRequest_result echo_origin 0
              (request_to RESULT_PATH None) prior_state eq_refl)
    as (w'' & Hres' & _).
  rewrite Hres' in Hres. injection Hres as <- _.
  destruct Hbody as [H|H]; vm_compute in H; discriminate H.
Qed.

(** ** Assigned visitors on the entry path *)

(** C6, at the input where the code departs from it.  A request to the
    entry path with a control cookie changes no counter and sets no
    cookie, but it is forwarded as it came: the origin is asked for the
    entry path itself, not for the control page; the path assigned to
    [url] is never used.  With a variant cookie the request is sent to
    the variant page. *)
Theorem control_visitor_is_forwarded_to_the_entry_path
    (origin : Request → Response) (random : Q) (request : Request) (w : World) :
  pathname (url request) = BASE_PATH →
  hasControlCookie request = true →
  handleRequest origin random request w = (Fulfilled (origin request), w) ∧
  pathname (url request) ≠ CONTROL_PATH ∧
  (∀ request',
     pathname (url request') = BASE_PATH →
     hasControlCookie request' = false → hasVariantCookie request' = true →
     handleRequest origin random request' w
     = (Fulfilled (origin {| url := set_pathname VARIANT_PATH (url request');
                             cookie := cookie request' |}), w)).
Proof.
  intros Hpath Hc. split; [|split].
  - by apply handleRequest_entry_control.
  - rewrite Hpath. discriminate.
  - intros request' Hpath' Hc' Hv'. by apply handleRequest_entry_variant.
Qed.

Lemma control_visitor_is_forwarded_to_the_entry_path_witness :
  handleRequest echo_origin 0
    (request_to BASE_PATH (Some "cloudflare_ab_test=control")) ∅
  = (Fulfilled {| status := 200; headers := []; body := "/abtest" |}, ∅)
  ∧ handleRequest echo_origin 0
      (request_to BASE_PATH (Some "cloudflare_ab_test=variant")) ∅
    = (Fulfilled {| status := 200; headers := []; body := "/abtest/variant" |},
       ∅).
Proof.
  destruct (control_visitor_is_forwarded_to_the_entry_path echo_origin 0
              (request_to BASE_PATH (Some "cloudflare_ab_test=control")) ∅
              eq_refl eq_refl) as (H1 & _ & H2).
  split; [exact H1|].
  apply (H2 (request_to BASE_PATH (Some "cloudflare_ab_test=variant")));
    reflexivity.
Defined.

(** ** Failing storage *)

(** C8, as the code has it.  On the entry path the response does not
    depend on the counters at all: the increment is not awaited, and
    whether it fails or not the visitor receives the same page.  On the
    action path the increment is awaited: the redirect is returned when
    no increment is due or the write succeeds, and when the write fails
    the handler fails with that error. *)
Theorem counting_failure_fails_only_the_action_request
    (origin : Request → Response) (random : Q) (request : Request) :
  (pathname (url request) = BASE_PATH →
   ∃ response, ∀ w,
     fst (handleRequest origin random request w) = Fulfilled response) ∧
  (pathname (url request) = ACTION_PATH →
   ∀ w,
     fst (handleRequest origin random request w)
     = match assigned_group request with
       | Some g =>
           if actionNotCountedCookie request then
             if healthy (action_counter g) w
             then Fulfilled (setActionCountedCookie action_redirect)
             else Rejected StorageFailure
           else Fulfilled action_redirect
       | None => Fulfilled action_redirect
       end).
Proof.
  split; intros Hpath.
  - destruct (assigned_group request) as [g|] eqn:Hg.
    + unfold assigned_group in Hg.
      destruct (hasControlCookie request) eqn:Hc.
      { eexists. intros w.
        by rewrite (handleRequest_entry_control origin random request w). }
      destruct (hasVariantCookie request) eqn:Hv; [|done].
      eexists. intros w.
      by rewrite (handleRequest_entry_variant origin random request w).
    + eexists. intros w.
      by rewrite (handleRequest_entry_new origin random request w).
  - intros w. destruct (assigned_group request) as [g|] eqn:Hg.
    + destruct (actionNotCountedCookie request) eqn:Hdue.
      * rewrite (handleRequest_action_due origin random request w g);
          try done.
        destruct (incrementCounter_spec (action_counter g) w)
          as (w' & -> & _).
        by destruct (healthy (action_counter g) w).
      * rewrite handleRequest_action_not_due; auto.
    + rewrite handleRequest_action_not_due; auto.
Qed.

Lemma counting_failure_fails_only_the_action_request_witness :
  fst (handleRequest echo_origin (3 # 4)
         (request_to BASE_PATH None)
         (<[COUNTER_CONTROL_SHOW :=
              Counter.mk (JS.Num 1) (JS.Num 1) false false]> ∅))
  = Fulfilled
      {| status := 200;
         headers := [("Set-Cookie", "cloudflare_ab_test=control; path=/")];
         body := "/abtest/control" |}
  ∧ fst (handleRequest echo_origin 0
           (request_to ACTION_PATH (Some "cloudflare_ab_test=control"))
           failing_action_storage)
    = Rejected StorageFailure
  ∧ fst (handleRequest echo_origin 0
           (request_to ACTION_PATH (Some "cloudflare_ab_test=control")) ∅)
    = Fulfilled (setActionCountedCookie action_redirect).
Proof.
  split; [|split].
  - destruct (counting_failure_fails_only_the_action_request echo_origin
                (3 # 4) (request_to BASE_PATH None)) as [H _].
    destruct (H eq_refl) as [response Hres].
    rewrite (Hres (<[COUNTER_CONTROL_SHOW :=
                       Counter.mk (JS.Num 1) (JS.Num 1) false false]> ∅)).
    rewrite <- (Hres ∅). reflexivity.
  - destruct (counting_failure_fails_only_the_action_request echo_origin 0
                (request_to ACTION_PATH (Some "cloudflare_ab_test=control")))
      as [_ H].
    rewrite (H eq_refl failing_action_storage). reflexivity.
  - destruct (counting_failure_fails_only_the_action_request echo_origin 0
                (request_to ACTION_PATH (Some "cloudflare_ab_test=control")))
      as [_ H].
    rewrite (H eq_refl ∅). reflexivity.
Defined.

(** C8, as the specification states it, fails: when the storage of the
    control action counter rejects the write, a counted visitor's action
    request is not answered with the redirect; the handler fails. *)
Lemma failed_action_count_fails_the_request :
  ¬ served (handleRequest echo_origin 0
              (request_to ACTION_PATH (Some "cloudflare_ab_test=control"))
              failing_action_storage).
Proof. intros [response H]. vm_compute in H. discriminate H. Qed.

(** ** Cookie detection *)

(** C10. The group cookie is found by substring search in the raw cookie
    header.  A header that holds [x_cloudflare_ab_test=control] (another
    cookie's name) or [cloudflare_ab_test=controlX] (a longer value) is
    taken for a control assignment: the entry path forwards the request
    without counting, and the action path increments the control action
    counter and no other. *)
Theorem group_cookie_is_a_substring_match
    (origin : Request → Response) (random : Q) (w : World) :
  Forall
    (λ header,
       let entry := request_to BASE_PATH (Some header) in
       let action := request_to ACTION_PATH (Some header) in
       hasControlCookie entry = true ∧
       assigned_group entry = Some "control" ∧
       handleRequest origin random entry w = (Fulfilled (origin entry), w) ∧
       ∃ w', snd (handleRequest origin random action w) = w' ∧
             reading COUNTER_CONTROL_ACTION w'
             = JS.pre_incr (reading COUNTER_CONTROL_ACTION w) ∧
             (∀ key, key ≠ COUNTER_CONTROL_ACTION → w' !! key = w !! key) ∧
             fst (handleRequest origin random action w)
             = if healthy COUNTER_CONTROL_ACTION w
               then Fulfilled (setActionCountedCookie action_redirect)
               else Rejected StorageFailure)
    ["x_cloudflare_ab_test=control"; "cloudflare_ab_test=controlX"].
Proof.
  repeat constructor; try (by apply handleRequest_entry_control).
  all: destruct (incrementCounter_spec COUNTER_CONTROL_ACTION w)
         as (w' & Hinc & Hread & _ & Hst & Hothers).
  all: rewrite (handleRequest_action_due origin random _ w "control");
         try reflexivity.
  all: change (action_counter "control") with COUNTER_CONTROL_ACTION.
  all: rewrite Hinc; exists w'.
  all: destruct (healthy COUNTER_CONTROL_ACTION w); by repeat split.
Qed.

(** * Further properties of the counter *)

(** X1. A request for a path other than [/increment], [/decrement] and
    [/value] is answered at once with status 404 and the text
    [Not found ] followed by the path; the value, the storage and the
    calls in flight are left as they are. *)
Theorem unknown_path_is_not_found
    (id : nat) (p : string) (s : Counter.system) :
  known_path p = false →
  Counter.blocked (Counter.obj s) = false →
  Counter.suspended s !! id = None →
  Counter.step (Counter.Deliver id p) s
  = Some {| Counter.obj := Counter.obj s;
            Counter.suspended := Counter.suspended s;
            Counter.settled :=
              Counter.settled s ++
              [(id, Fulfilled {| status := 404; headers := [];
                                 body := "Not found " +:+ p |})] |}.
Proof.
  unfold known_path. intros Hp Hb Hid.
  apply orb_false_elim in Hp as [Hp Hv]. apply orb_false_elim in Hp as [Hi Hd].
  unfold Counter.step, Counter.fetch_begin. by rewrite Hb, Hid, Hi, Hd, Hv.
Qed.

Lemma unknown_path_is_not_found_witness :
  Counter.run [Counter.InitDone; Counter.Deliver 0 "/Increment"]
    (Counter.boot (JS.Num 4) true)
  = Some {| Counter.obj := Counter.mk (JS.Num 4) (JS.Num 4) true false;
            Counter.suspended := ∅;
            Counter.settled :=
              [(0%nat, Fulfilled {| status := 404; headers := [];
                                    body := "Not found /Increment" |})] |}.
Proof.
  rewrite run_init. rewrite run_cons.
  rewrite (unknown_path_is_not_found 0 "/Increment"); reflexivity.
Defined.

(** X2. A [value] request answers with the in-memory value at its
    delivery: the loaded value plus the increments minus the decrements
    delivered before it, whether or not their writes have settled or
    succeeded; it is answered at once and changes nothing. *)
Theorem value_reads_the_value_in_memory
    (V : Z) (stored : JS.value) (ok : bool) (id : nat)
    (sch : list Counter.event) (s : Counter.system) :
  JS.or_zero stored = JS.Num V →
  Counter.run (Counter.InitDone :: sch) (Counter.boot stored ok) = Some s →
  Counter.suspended s !! id = None →
  Counter.step (Counter.Deliver id "/value") s
  = Some {| Counter.obj := Counter.obj s;
            Counter.suspended := Counter.suspended s;
            Counter.settled :=
              Counter.settled s ++
              [(id, Fulfilled
                      (Response_of_value
                         (JS.Num (V + Z.of_nat (Counter.calls "/increment" sch)
                                    - Z.of_nat (Counter.calls "/decrement" sch)))))]
         |}.
Proof.
  intros HV Hrun Hid. rewrite run_init in Hrun.
  apply (run_value sch _ s V) in Hrun; [|reflexivity|exact HV].
  destruct Hrun as [Hb Hv].
  unfold Counter.step. by rewrite Hb, Hid, fetch_begin_value, Hv.
Qed.

Lemma value_reads_the_value_in_memory_witness :
  Counter.settled <$>
    Counter.run [Counter.InitDone; Counter.Deliver 0 "/increment";
                 Counter.Deliver 1 "/increment"; Counter.Deliver 2 "/value"]
      (Counter.boot (JS.Num 4) true)
  = Some [(2%nat, Fulfilled (Response_of_value (JS.Num 6)))].
Proof.
  destruct (Counter.run [Counter.InitDone; Counter.Deliver 0 "/increment";
                         Counter.Deliver 1 "/increment"]
              (Counter.boot (JS.Num 4) true)) as [s|] eqn:Hrun;
    [|vm_compute in Hrun; discriminate].
  change [Counter.InitDone; Counter.Deliver 0 "/increment";
          Counter.Deliver 1 "/increment"; Counter.Deliver 2 "/value"]
    with ([Counter.InitDone; Counter.Deliver 0 "/increment";
           Counter.Deliver 1 "/increment"] ++ [Counter.Deliver 2 "/value"]).
  rewrite run_app, Hrun. cbn [mbind option_bind]. rewrite run_cons.
  rewrite (value_reads_the_value_in_memory 4 (JS.Num 4) true 2 _ s eq_refl Hrun).
  - vm_compute in Hrun. injection Hrun as <-. reflexivity.
  - vm_compute in Hrun. injection Hrun as <-. reflexivity.
Defined.

Section Durability.
Import Counter.

(** With storage that accepts writes, the storage always loads as the
    value in memory. *)
Lemma persisted_step (e : event) (s s' : system) :
  storage_ok (obj s) = true → blocked (obj s) = false →
  persisted (obj s) = value (obj s) → step e s = Some s' →
  storage_ok (obj s') = true ∧ blocked (obj s') = false ∧
  persisted (obj s') = value (obj s').
Proof.
  unfold persisted. intros Hok Hb Hp Hstep.
  destruct (or_zero_is_num (storage (obj s))) as [z Hz].
  rewrite Hz in Hp. symmetry in Hp.
  destruct e as [|id p|id]; unfold step in Hstep.
  - by rewrite Hb in Hstep.
  - rewrite Hb in Hstep. destruct (suspended s !! id); [done|].
    unfold fetch_begin in Hstep.
    destruct (String.eqb p "/increment");
      [|destruct (String.eqb p "/decrement");
        [|destruct (String.eqb p "/value")]];
      injection Hstep as <-;
      cbn [obj value storage storage_ok blocked storage_put set_value];
      rewrite ?Hok, ?Hp; cbn [JS.pre_incr JS.pre_decr];
      rewrite ?or_zero_Num; repeat split; try done; congruence.
  - destruct (suspended s !! id); [|done]. injection Hstep as <-.
    cbn [obj]. repeat split; try done. congruence.
Qed.

Lemma persisted_run (sch : list event) : ∀ s s',
  storage_ok (obj s) = true → blocked (obj s) = false →
  persisted (obj s) = value (obj s) → run sch s = Some s' →
  storage_ok (obj s') = true ∧ blocked (obj s') = false ∧
  persisted (obj s') = value (obj s').
Proof.
  induction sch as [|e sch IH]; intros s s' Hok Hb Hp Hrun.
  - by injection Hrun as <-.
  - rewrite run_cons in Hrun.
    destruct (step e s) as [s1|] eqn:Hstep; [|done].
    destruct (persisted_step e s s1 Hok Hb Hp Hstep) as (Hok1 & Hb1 & Hp1).
    by apply (IH s1 s').
Qed.

(** With storage that rejects writes, nothing reaches the storage, and a
    call that writes fails. *)
Lemma failing_step (e : event) (s s' : system) :
  storage_ok (obj s) = false → step e s = Some s' →
  storage_ok (obj s') = false ∧ storage (obj s') = storage (obj s).
Proof.
  intros Hok Hstep. destruct e as [|id p|id]; unfold step in Hstep.
  - destruct (blocked (obj s)); [|done]. by injection Hstep as <-.
  - destruct (blocked (obj s)); [done|].
    destruct (suspended s !! id); [done|]. unfold fetch_begin in Hstep.
    destruct (String.eqb p "/increment");
      [|destruct (String.eqb p "/decrement");
        [|destruct (String.eqb p "/value")]];
      injection Hstep as <-;
      cbn [obj value storage storage_ok blocked storage_put set_value];
      by rewrite ?Hok.
  - destruct (suspended s !! id); [|done]. by injection Hstep as <-.
Qed.

Lemma failing_run (sch : list event) : ∀ s s',
  storage_ok (obj s) = false → increments_only sch = true →
  Forall (λ r, r = Rejected StorageFailure) (returned s) →
  run sch s = Some s' →
  storage (obj s') = storage (obj s) ∧
  Forall (λ r, r = Rejected StorageFailure) (returned s').
Proof.
  induction sch as [|e sch IH]; intros s s' Hok Hall Hret Hrun.
  - by injection Hrun as <-.
  - rewrite run_cons in Hrun.
    destruct (step e s) as [s1|] eqn:Hstep; [|done].
    destruct (failing_step e s s1 Hok Hstep) as [Hok1 Hst1].
    cbn [increments_only forallb] in Hall.
    apply andb_prop in Hall as [He Hall]. fold (increments_only sch) in Hall.
    rewrite <- Hst1. apply (IH s1 s'); try done.
    unfold returned in *. destruct e as [|id p|id]; [done| |];
      unfold step in Hstep.
    + apply String.eqb_eq in He as ->.
      destruct (blocked (obj s)); [done|].
      destruct (suspended s !! id); [done|].
      rewrite fetch_begin_increment in Hstep. by injection Hstep as <-.
    + destruct (suspended s !! id); [|done]. injection Hstep as <-.
      cbn [settled]. rewrite fmap_app. apply Forall_app. split; [done|].
      constructor; [|constructor]. cbn [snd]. unfold fetch_resume.
      by rewrite Hok.
Qed.

End Durability.

(** X3. With storage that accepts writes, at every moment of every
    schedule, also while writes are awaited, the storage loads as the
    value in memory: an instance constructed anew over the storage starts
    from the value the old instance had. *)
Theorem storage_always_loads_as_the_value
    (stored : JS.value) (sch : list Counter.event) (s : Counter.system) :
  Counter.run (Counter.InitDone :: sch) (Counter.boot stored true) = Some s →
  Counter.persisted (Counter.obj s) = Counter.value (Counter.obj s) ∧
  Counter.obj <$> Counter.run [Counter.InitDone]
                    (Counter.boot (Counter.storage (Counter.obj s)) true)
  = Some (Counter.mk (Counter.value (Counter.obj s))
            (Counter.storage (Counter.obj s)) true false).
Proof.
  intros Hrun. rewrite run_init in Hrun.
  apply persisted_run in Hrun as (_ & _ & Hp); [|done|done|].
  - split; [done|]. rewrite run_init. cbn. by rewrite <- Hp.
  - reflexivity.
Qed.

Lemma storage_always_loads_as_the_value_witness :
  ∃ s, Counter.run [Counter.InitDone; Counter.Deliver 0 "/increment";
                    Counter.Deliver 1 "/decrement"; Counter.Deliver 2 "/decrement"]
         (Counter.boot JS.Undefined true) = Some s ∧
       Counter.persisted (Counter.obj s) = JS.Num (-1).
Proof.
  destruct (Counter.run [Counter.InitDone; Counter.Deliver 0 "/increment";
                         Counter.Deliver 1 "/decrement";
                         Counter.Deliver 2 "/decrement"]
              (Counter.boot JS.Undefined true)) as [s|] eqn:Hrun;
    [|vm_compute in Hrun; discriminate].
  exists s. split; [done|].
  destruct (storage_always_loads_as_the_value JS.Undefined _ s Hrun) as [-> _].
  vm_compute in Hrun. injection Hrun as <-. reflexivity.
Defined.

(** X4. With storage that rejects writes, increments still raise the
    value in memory, every increment call fails with the storage error,
    and the storage keeps what it held: an instance constructed anew
    starts from the old stored value and the increments are lost. *)
Theorem failed_writes_lose_the_increments
    (V : Z) (stored : JS.value) (sch : list Counter.event)
    (s : Counter.system) :
  JS.or_zero stored = JS.Num V →
  Counter.increments_only sch = true →
  Counter.run (Counter.InitDone :: sch) (Counter.boot stored false) = Some s →
  Counter.value (Counter.obj s)
  = JS.Num (V + Z.of_nat (Counter.calls "/increment" sch)) ∧
  Counter.storage (Counter.obj s) = stored ∧
  Counter.persisted (Counter.obj s) = JS.Num V ∧
  Forall (λ r, r = Rejected StorageFailure) (Counter.returned s).
Proof.
  intros HV Hall Hrun. rewrite run_init in Hrun.
  assert (Hdec : Counter.calls "/decrement" sch = 0%nat).
  { clear Hrun. induction sch as [|e sch IH]; [done|].
    cbn [Counter.increments_only forallb] in Hall.
    apply andb_prop in Hall as [He Hall].
    rewrite (calls_cons "/decrement" e sch), (IH Hall).
    destruct e as [|id p|id]; try done.
    apply String.eqb_eq in He as ->. reflexivity. }
  split.
  - apply (run_value sch _ s V) in Hrun; [|reflexivity|exact HV].
    destruct Hrun as [_ ->]. rewrite Hdec. f_equal. lia.
  - apply failing_run in Hrun as [Hst Hret];
      [|reflexivity|exact Hall|constructor].
    cbn [Counter.obj Counter.storage] in Hst.
    unfold Counter.persisted. by rewrite Hst.
Qed.

Lemma failed_writes_lose_the_increments_witness :
  ∃ s, Counter.run [Counter.InitDone; Counter.Deliver 0 "/increment";
                    Counter.Deliver 1 "/increment"; Counter.PutDone 0;
                    Counter.PutDone 1]
         (Counter.boot (JS.Num 4) false) = Some s ∧
       Counter.value (Counter.obj s) = JS.Num 6 ∧
       Counter.storage (Counter.obj s) = JS.Num 4 ∧
       Counter.returned s = [Rejected StorageFailure; Rejected StorageFailure].
Proof.
  destruct (Counter.run [Counter.InitDone; Counter.Deliver 0 "/increment";
                         Counter.Deliver 1 "/increment"; Counter.PutDone 0;
                         Counter.PutDone 1]
              (Counter.boot (JS.Num 4) false)) as [s|] eqn:Hrun;
    [|vm_compute in Hrun; discriminate].
  exists s. split; [done|].
  destruct (failed_writes_lose_the_increments 4 (JS.Num 4)
              [Counter.Deliver 0 "/increment"; Counter.Deliver 1 "/increment";
               Counter.PutDone 0; Counter.PutDone 1] s
              eq_refl eq_refl Hrun) as (Hv & Hst & _ & _).
  split; [exact Hv|]. split; [exact Hst|].
  vm_compute in Hrun. injection Hrun as <-. reflexivity.
Defined.

(** * Further properties of the worker *)

(** ** Cookie detection is substring search *)

Lemma prefix_spec (pat s : string) :
  String.prefix pat s = true ↔ ∃ post, s = pat +:+ post.
Proof.
  revert s. induction pat as [|a pat IH]; intros s.
  - split; [by exists s | by destruct s].
  - destruct s as [|b s]; cbn [String.prefix].
    + split; [done | by intros [post H]].
    + destruct (ascii_dec a b) as [->|Hne].
      * rewrite IH. split; intros [post H]; exists post.
        -- by rewrite H.
        -- by injection H.
      * split; [done|]. intros [post H]. injection H as H _. congruence.
Qed.

Lemma includes_spec (s pat : string) :
  JS.includes s pat = true ↔ ∃ pre post, s = pre +:+ pat +:+ post.
Proof.
  split.
  - induction s as [|a s IH]; cbn [JS.includes]; intros H;
      apply orb_prop in H as [H|H]; try done.
    + apply prefix_spec in H as [post H]. by exists EmptyString, post.
    + apply prefix_spec in H as [post H]. by exists EmptyString, post.
    + destruct (IH H) as (pre & post & ->). by exists (String a pre), post.
  - intros (pre & post & ->). induction pre as [|a pre IH].
    + assert (H : String.prefix pat (pat +:+ post) = true)
        by (apply prefix_spec; by exists post).
      change (EmptyString +:+ pat +:+ post) with (pat +:+ post).
      revert H. generalize (pat +:+ post). intros t H.
      destruct t; cbn [JS.includes]; by rewrite H.
    + change (String a pre +:+ pat +:+ post)
        with (String a (pre +:+ pat +:+ post)).
      cbn [JS.includes]. rewrite IH. apply orb_true_r.
Qed.

(** X6. The cookie tests are plain substring searches in the cookie
    header: a group is detected exactly when the text
    [cloudflare_ab_test=<group>] occurs somewhere in the header, and an
    action is taken as not yet counted exactly when there is a non-empty
    header in which [cloudflare_ab_test_counted=true] occurs nowhere. *)
Theorem cookie_tests_are_substring_searches (request : Request) :
  (hasControlCookie request = true ↔
   ∃ pre post,
     cookie request = Some (pre +:+ "cloudflare_ab_test=control" +:+ post)) ∧
  (hasVariantCookie request = true ↔
   ∃ pre post,
     cookie request = Some (pre +:+ "cloudflare_ab_test=variant" +:+ post)) ∧
  (actionNotCountedCookie request = true ↔
   ∃ header,
     cookie request = Some header ∧ header ≠ EmptyString ∧
     ¬ ∃ pre post,
         header = pre +:+ "cloudflare_ab_test_counted=true" +:+ post).
Proof.
  unfold hasControlCookie, hasVariantCookie, actionNotCountedCookie.
  destruct (cookie request) as [header|]; [|repeat split; try done].
  - split; [|split].
    + change (COOKIE_NAME +:+ "=control") with "cloudflare_ab_test=control".
      rewrite andb_true_iff, includes_spec. split.
      * intros [_ (pre & post & ->)]. by exists pre, post.
      * intros (pre & post & [= ->]). split; [|by exists pre, post].
        by destruct pre.
    + change (COOKIE_NAME +:+ "=variant") with "cloudflare_ab_test=variant".
      rewrite andb_true_iff, includes_spec. split.
      * intros [_ (pre & post & ->)]. by exists pre, post.
      * intros (pre & post & [= ->]). split; [|by exists pre, post].
        by destruct pre.
    + rewrite andb_true_iff, negb_true_iff. split.
      * intros [Ht Hn]. exists header. split; [done|]. split.
        -- by destruct header.
        -- intros H%includes_spec. congruence.
      * intros (h & [= <-] & Hne & Hn). split; [by destruct header|].
        destruct (JS.includes header "cloudflare_ab_test_counted=true") eqn:H;
          [|done].
        apply includes_spec in H. done.
  - by intros (pre & post & H).
  - by intros (pre & post & H).
  - by intros (h & H & _).
Qed.

(** ** Requests that count nothing *)

Section Untouched.
Variable origin : Request → Response.

Lemma handleRequest_other random request w :
  pathname (url request) ≠ BASE_PATH →
  pathname (url request) ≠ ACTION_PATH →
  pathname (url request) ≠ RESULT_PATH →
  handleRequest origin random request w = (Fulfilled (origin request), w).
Proof.
  intros H1%String.eqb_neq H2%String.eqb_neq H3%String.eqb_neq.
  unfold handleRequest. by rewrite H1, H2, H3.
Qed.

End Untouched.

(** X7. A request for any path other than the entry, action and result
    paths, the pages [/abtest/control] and [/abtest/variant] themselves
    among them, is forwarded to the origin as it came: the origin's
    response is returned as it is and no counter is touched. *)
Theorem other_paths_are_passed_through
    (origin : Request → Response) (random : Q) (request : Request) (w : World) :
  pathname (url request) ≠ BASE_PATH →
  pathname (url request) ≠ ACTION_PATH →
  pathname (url request) ≠ RESULT_PATH →
  handleRequest origin random request w = (Fulfilled (origin request), w) ∧
  counted_by random request = None.
Proof.
  intros H1 H2 H3. split; [by apply handleRequest_other|].
  unfold counted_by.
  apply String.eqb_neq in H1, H2. by rewrite H1, H2.
Qed.

Lemma other_paths_are_passed_through_witness :
  handleRequest echo_origin 0 (request_to CONTROL_PATH None) prior_state
  = (Fulfilled {| status := 200; headers := []; body := "/abtest/control" |},
     prior_state)
  ∧ handleRequest echo_origin 0 (request_to "/abtest/" None) prior_state
    = (Fulfilled {| status := 200; headers := []; body := "/abtest/" |},
       prior_state).
Proof.
  split.
  - apply (other_paths_are_passed_through echo_origin 0
             (request_to CONTROL_PATH None) prior_state); discriminate.
  - apply (other_paths_are_passed_through echo_origin 0
             (request_to "/abtest/" None) prior_state); discriminate.
Defined.

(** X8. An action request of a visitor in whose cookies no group is
    found, among them every request without a cookie header, is answered
    with the redirect, without any cookie, and counts nothing. *)
Theorem unassigned_action_counts_nothing
    (origin : Request → Response) (random : Q) (request : Request) (w : World) :
  pathname (url request) = ACTION_PATH →
  cookie request = None ∨
  (hasControlCookie request = false ∧ hasVariantCookie request = false) →
  handleRequest origin random request w
  = (Fulfilled
       {| status := 302;
          headers := [("Location",
                       "https://ptrlaszlo.com/posts/cloudflare-ab-testing")];
          body := EmptyString |}, w).
Proof.
  intros Hpath Hnone.
  apply handleRequest_action_not_due; [done|]. left.
  unfold assigned_group, hasControlCookie, hasVariantCookie in *.
  destruct Hnone as [->|[-> ->]]; reflexivity.
Qed.

Lemma unassigned_action_counts_nothing_witness :
  handleRequest echo_origin 0 (request_to ACTION_PATH None) prior_state
  = (Fulfilled action_redirect, prior_state)
  ∧ handleRequest echo_origin 0
      (request_to ACTION_PATH (Some "theme=dark")) prior_state
    = (Fulfilled action_redirect, prior_state).
Proof.
  split.
  - apply (unassigned_action_counts_nothing echo_origin 0
             (request_to ACTION_PATH None) prior_state eq_refl).
    left. reflexivity.
  - apply (unassigned_action_counts_nothing echo_origin 0
             (request_to ACTION_PATH (Some "theme=dark")) prior_state eq_refl).
    right. split; reflexivity.
Defined.

(** ** What a request does to the counters *)

Lemma reading_ext (key : string) (w w' : World) :
  w' !! key = w !! key → reading key w' = reading key w.
Proof. unfold reading, COUNTER_get. by intros ->. Qed.

Lemma COUNTER_get_ext (key : string) (w w' : World) :
  w' !! key = w !! key → COUNTER_get key w' = COUNTER_get key w.
Proof. unfold COUNTER_get. by intros ->. Qed.

Lemma ready_storage (c : Counter.t) :
  Counter.storage (ready c) = Counter.storage c.
Proof. unfold ready. by destruct (Counter.blocked c). Qed.

(** A value request loads the object if it was not in memory and changes
    nothing else. *)
Lemma getCounterValue_snd (key : string) (w : World) :
  snd (getCounterValue key w) = <[key := ready (COUNTER_get key w)]> w.
Proof.
  unfold getCounterValue, await, stub_fetch, stub_pathname, Counter.fetch.
  change ("/" +:+ "value") with "/value". by rewrite fetch_begin_value.
Qed.

Lemma getCounterValue_keeps (key k : string) (w : World) :
  reading k (snd (getCounterValue key w)) = reading k w ∧
  healthy k (snd (getCounterValue key w)) = healthy k w ∧
  Counter.storage (COUNTER_get k (snd (getCounterValue key w)))
  = Counter.storage (COUNTER_get k w).
Proof.
  rewrite getCounterValue_snd. unfold reading, healthy.
  destruct (decide (key = k)) as [->|Hne].
  - by rewrite COUNTER_get_insert, ready_ready, ready_storage_ok, ready_storage.
  - by rewrite COUNTER_get_insert_ne.
Qed.

Section Effect.
Variable origin : Request → Response.

(** The handler changes the namespace through one increment at most, or
    through the four reads of the result path. *)
Lemma handleRequest_snd random request w :
  snd (handleRequest origin random request w)
  = match counted_by random request with
    | Some key => snd (incrementCounter key w)
    | None =>
        if String.eqb (pathname (url request)) RESULT_PATH then
          snd (getCounterValue COUNTER_VARIANT_ACTION
            (snd (getCounterValue COUNTER_VARIANT_SHOW
              (snd (getCounterValue COUNTER_CONTROL_ACTION
                (snd (getCounterValue COUNTER_CONTROL_SHOW w)))))))
        else w
    end.
Proof.
  unfold counted_by.
  destruct (String.eqb_spec (pathname (url request)) BASE_PATH) as [Hb|Hb].
  { rewrite Hb. change (String.eqb BASE_PATH RESULT_PATH) with false.
    destruct (assigned_group request) as [g|] eqn:Hg.
    - unfold assigned_group in Hg.
      destruct (hasControlCookie request) eqn:Hc.
      + by rewrite handleRequest_entry_control.
      + destruct (hasVariantCookie request) eqn:Hv; [|done].
        by rewrite handleRequest_entry_variant.
    - by rewrite handleRequest_entry_new. }
  destruct (String.eqb_spec (pathname (url request)) ACTION_PATH) as [Ha|Ha].
  { rewrite Ha. change (String.eqb ACTION_PATH RESULT_PATH) with false.
    destruct (assigned_group request) as [g|] eqn:Hg.
    - destruct (actionNotCountedCookie request) eqn:Hdue.
      + rewrite (handleRequest_action_due origin random request w g);
          try done.
        by destruct (incrementCounter (action_counter g) w) as [[]].
      + rewrite handleRequest_action_not_due; auto.
    - rewrite handleRequest_action_not_due; auto. }
  destruct (String.eqb_spec (pathname (url request)) RESULT_PATH) as [Hr|Hr].
  { unfold handleRequest. rewrite Hr.
    change (String.eqb RESULT_PATH BASE_PATH) with false.
    change (String.eqb RESULT_PATH ACTION_PATH) with false.
    change (String.eqb RESULT_PATH RESULT_PATH) with true. cbv iota.
    unfold await.
    destruct (getCounterValue_spec COUNTER_CONTROL_SHOW w) as (w1 & H1 & _).
    rewrite H1. cbn [snd].
    destruct (getCounterValue_spec COUNTER_CONTROL_ACTION w1) as (w2 & H2 & _).
    rewrite H2. cbn [snd].
    destruct (getCounterValue_spec COUNTER_VARIANT_SHOW w2) as (w3 & H3 & _).
    rewrite H3. cbn [snd].
    destruct (getCounterValue_spec COUNTER_VARIANT_ACTION w3) as (w4 & H4 & _).
    rewrite H4. reflexivity. }
  by rewrite handleRequest_other.
Qed.

(** What holds of the namespace and is kept by every increment and every
    read is kept by the handler. *)
Lemma handleRequest_preserves (P : World → Prop) random request w :
  (∀ key w, P w → P (snd (incrementCounter key w))) →
  (∀ key w, P w → P (snd (getCounterValue key w))) →
  P w → P (snd (handleRequest origin random request w)).
Proof.
  intros Hinc Hget HP. rewrite handleRequest_snd.
  destruct (counted_by random request); [by apply Hinc|].
  destruct (String.eqb (pathname (url request)) RESULT_PATH); [|done].
  by repeat apply Hget.
Qed.

Lemma serve_preserves (P : World → Prop) requests : ∀ w,
  (∀ key w, P w → P (snd (incrementCounter key w))) →
  (∀ key w, P w → P (snd (getCounterValue key w))) →
  P w → P (serve origin requests w).
Proof.
  induction requests as [|[random request] rest IH]; intros w Hinc Hget HP;
    [done|].
  cbn [serve]. apply IH; try done. by apply handleRequest_preserves.
Qed.

End Effect.

Lemma handleRequest_reading
    (origin : Request → Response) (random : Q) (request : Request)
    (w : World) (key : string) :
  reading key (snd (handleRequest origin random request w))
  = (if decide (counted_by random request = Some key)
     then JS.pre_incr (reading key w) else reading key w) ∧
  healthy key (snd (handleRequest origin random request w)) = healthy key w.
Proof.
  rewrite handleRequest_snd.
  destruct (counted_by random request) as [k|].
  - destruct (incrementCounter_spec k w) as (w1 & Hinc & Hread & Hh & _ & Ho).
    rewrite Hinc. cbn [snd]. case_decide as Hk.
    + injection Hk as ->. done.
    + assert (Hne : key ≠ k) by congruence.
      unfold healthy.
      rewrite (reading_ext key w w1), (COUNTER_get_ext key w w1); auto.
  - rewrite decide_False by done.
    destruct (String.eqb (pathname (url request)) RESULT_PATH); [|done].
    split.
    + rewrite !(proj1 (getCounterValue_keeps _ key _)). done.
    + rewrite !(proj1 (proj2 (getCounterValue_keeps _ key _))). done.
Qed.

(** X9. A request changes at most one counter and never lowers one:
    the counter named by the request's path, cookies and draw reads one
    more afterwards, every other counter reads what it read before, and
    no storage changes between accepting and rejecting writes. *)
Theorem a_request_increments_at_most_one_counter
    (origin : Request → Response) (random : Q) (request : Request)
    (w : World) (key : string) :
  let w' := snd (handleRequest origin random request w) in
  reading key w'
  = (if decide (counted_by random request = Some key)
     then JS.pre_incr (reading key w) else reading key w) ∧
  healthy key w' = healthy key w ∧
  (∀ v, reading key w = JS.Num v →
        reading key w' = JS.Num v ∨ reading key w' = JS.Num (v + 1)).
Proof.
  intros w'. subst w'.
  destruct (handleRequest_reading origin random request w key) as [Hread Hh].
  split; [done|]. split; [done|].
  intros v Hv. rewrite Hread, Hv. case_decide; [by right | by left].
Qed.

(** ** Sequences of requests *)

Lemma hits_cons (key : string) (random : Q) (request : Request)
    (rest : list (Q * Request)) :
  hits key ((random, request) :: rest)
  = ((if decide (counted_by random request = Some key) then 1 else 0)
     + hits key rest)%nat.
Proof.
  unfold hits. rewrite filter_cons. cbn [fst snd].
  case_decide; reflexivity.
Qed.

Lemma serve_reading (origin : Request → Response) (key : string)
    (requests : list (Q * Request)) : ∀ w v,
  reading key w = JS.Num v →
  reading key (serve origin requests w)
  = JS.Num (v + Z.of_nat (hits key requests)).
Proof.
  induction requests as [|[random request] rest IH]; intros w v Hv.
  - cbn [serve]. rewrite Hv. f_equal. unfold hits. cbn. lia.
  - cbn [serve]. rewrite hits_cons.
    destruct (handleRequest_reading origin random request w key) as [Hread _].
    rewrite Hv in Hread. case_decide.
    + rewrite (IH _ (v + 1)); [f_equal; lia | exact Hread].
    + rewrite (IH _ v); [f_equal; lia | exact Hread].
Qed.

Lemma serve_healthy (origin : Request → Response) (key : string)
    (requests : list (Q * Request)) : ∀ w,
  healthy key (serve origin requests w) = healthy key w.
Proof.
  induction requests as [|[random request] rest IH]; intros w; [done|].
  cbn [serve]. rewrite IH.
  apply (handleRequest_reading origin random request w key).
Qed.

Lemma reading_empty (key : string) : reading key ∅ = JS.Num 0.
Proof. unfold reading, COUNTER_get. by rewrite lookup_empty. Qed.

(** X10. Over any sequence of requests handled one after the other, a
    counter that read [v] reads [v] plus the number of requests that
    count for it: new visitors drawn into its group for a show counter,
    first actions of its group for an action counter.  Requests for other
    paths, repeat visits, repeated actions and result requests add
    nothing, and nothing is ever subtracted. *)
Theorem counters_add_up_over_requests
    (origin : Request → Response) (requests : list (Q * Request))
    (w : World) (key : string) (v : Z) :
  reading key w = JS.Num v →
  reading key (serve origin requests w)
  = JS.Num (v + Z.of_nat (hits key requests)) ∧
  (hits key requests ≤ length requests)%nat.
Proof.
  intros Hv. split; [by apply serve_reading|].
  unfold hits. apply length_filter.
Qed.

Lemma counters_add_up_over_requests_witness :
  reading COUNTER_VARIANT_SHOW
    (serve echo_origin
       [((1 # 4)%Q, request_to BASE_PATH None);
        ((1 # 4)%Q, request_to BASE_PATH (Some "cloudflare_ab_test=variant"));
        ((3 # 4)%Q, request_to BASE_PATH None);
        ((1 # 8)%Q, request_to BASE_PATH (Some "theme=dark"));
        ((1 # 8)%Q, request_to RESULT_PATH None)]
       prior_state)
  = JS.Num 9.
Proof.
  destruct (counters_add_up_over_requests echo_origin
              [((1 # 4)%Q, request_to BASE_PATH None);
               ((1 # 4)%Q,
                request_to BASE_PATH (Some "cloudflare_ab_test=variant"));
               ((3 # 4)%Q, request_to BASE_PATH None);
               ((1 # 8)%Q, request_to BASE_PATH (Some "theme=dark"));
               ((1 # 8)%Q, request_to RESULT_PATH None)]
              prior_state COUNTER_VARIANT_SHOW 7 eq_refl) as [H _].
  exact H.
Defined.

(** X11. Starting from an empty namespace, the result path reports
    exactly what was served: the four fields are the numbers of requests
    that counted as a control show, a control action, a variant show and
    a variant action, each written as a decimal string. *)
Theorem result_reports_the_requests_served
    (origin : Request → Response) (requests : list (Q * Request))
    (random : Q) (request : Request) :
  pathname (url request) = RESULT_PATH →
  ∃ w',
    handleRequest origin random request (serve origin requests ∅)
    = (Fulfilled
         {| status := 200;
            headers := [("content-type", "application/json;charset=UTF-8")];
            body :=
              JSON.stringify2
                (JSON.Obj
                   [("controlShow",
                     JSON.Str (pretty (Z.of_nat (hits COUNTER_CONTROL_SHOW requests))));
                    ("controlAction",
                     JSON.Str (pretty (Z.of_nat (hits COUNTER_CONTROL_ACTION requests))));
                    ("variantShow",
                     JSON.Str (pretty (Z.of_nat (hits COUNTER_VARIANT_SHOW requests))));
                    ("variantAction",
                     JSON.Str (pretty (Z.of_nat (hits COUNTER_VARIANT_ACTION requests))))])
         |}, w').
Proof.
  intros Hpath.
  destruct (handleRequest_result origin random request
              (serve origin requests ∅) Hpath) as (w' & Hres & _).
  exists w'. rewrite Hres. unfold result_response, result_data.
  rewrite !(λ key, serve_reading origin key requests ∅ 0 (reading_empty key)).
  reflexivity.
Qed.

Lemma result_reports_the_requests_served_witness :
  ∃ w',
    handleRequest echo_origin 0 (request_to RESULT_PATH None)
      (serve echo_origin
         [((1 # 4)%Q, request_to BASE_PATH None);
          (0%Q, request_to ACTION_PATH (Some "cloudflare_ab_test=variant"));
          ((3 # 4)%Q, request_to BASE_PATH None);
          ((1 # 8)%Q, request_to BASE_PATH None)] ∅)
    = (Fulfilled
         {| status := 200;
            headers := [("content-type", "application/json;charset=UTF-8")];
            body := JSON.stringify2 (result_data "1" "0" "2" "1") |}, w').
Proof.
  destruct (result_reports_the_requests_served echo_origin
              [((1 # 4)%Q, request_to BASE_PATH None);
               (0%Q, request_to ACTION_PATH (Some "cloudflare_ab_test=variant"));
               ((3 # 4)%Q, request_to BASE_PATH None);
               ((1 # 8)%Q, request_to BASE_PATH None)]
              0 (request_to RESULT_PATH None) eq_refl) as [w' H].
  exists w'. exact H.
Defined.

(** ** Restarts *)

Lemma incrementCounter_snd (key : string) (w : World) :
  snd (incrementCounter key w)
  = <[key := snd (Counter.fetch "/increment" (ready (COUNTER_get key w)))]> w.
Proof.
  unfold incrementCounter, await, stub_fetch, stub_pathname.
  change ("/" +:+ "increment") with "/increment".
  by destruct (Counter.fetch "/increment" (ready (COUNTER_get key w)))
    as [[r|e] c'].
Qed.

Lemma durable_get (key : string) (w : World) :
  durable w →
  Counter.storage_ok (COUNTER_get key w) = true ∧
  Counter.value (ready (COUNTER_get key w))
  = Counter.persisted (COUNTER_get key w).
Proof.
  intros Hd. unfold COUNTER_get.
  destruct (w !! key) as [c|] eqn:Hc; [by apply (Hd key)|].
  by split.
Qed.

Lemma durable_incrementCounter (key : string) (w : World) :
  durable w → durable (snd (incrementCounter key w)).
Proof.
  intros Hd k c. rewrite incrementCounter_snd.
  destruct (decide (key = k)) as [<-|Hne].
  - rewrite lookup_insert_eq. intros [= <-].
    destruct (durable_get key w Hd) as [Hok Hv].
    assert (Hok0 : Counter.storage_ok (ready (COUNTER_get key w)) = true)
      by (by rewrite ready_storage_ok).
    pose proof (ready_not_blocked (COUNTER_get key w)) as Hb0.
    unfold Counter.fetch, Counter.fetch_begin, Counter.persisted, ready at 1,
      Counter.storage_put, Counter.set_value.
    cbn [snd fst String.eqb Ascii.eqb Bool.eqb Counter.storage_ok
         Counter.value Counter.storage Counter.blocked].
    rewrite Hb0, Hok0, Hv. split; [done|]. unfold Counter.persisted.
    destruct (or_zero_is_num (Counter.storage (COUNTER_get key w))) as [z ->].
    cbn [JS.pre_incr]. by rewrite or_zero_Num.
  - rewrite lookup_insert_ne by done. apply Hd.
Qed.

Lemma durable_getCounterValue (key : string) (w : World) :
  durable w → durable (snd (getCounterValue key w)).
Proof.
  intros Hd k c. rewrite getCounterValue_snd.
  destruct (decide (key = k)) as [<-|Hne].
  - rewrite lookup_insert_eq. intros [= <-].
    destruct (durable_get key w Hd) as [Hok Hv].
    rewrite ready_ready, ready_storage_ok. split; [done|].
    unfold Counter.persisted in *. by rewrite ready_storage.
  - rewrite lookup_insert_ne by done. apply Hd.
Qed.

Lemma restart_reading (key : string) (w : World) :
  durable w → reading key (restart w) = reading key w.
Proof.
  intros Hd. unfold reading, restart, COUNTER_get. rewrite lookup_fmap.
  destruct (w !! key) as [c|] eqn:Hc; [|done].
  destruct (Hd key c Hc) as [_ Hv].
  transitivity (Counter.persisted c); [reflexivity | symmetry; exact Hv].
Qed.

Lemma restart_durable (w : World) : durable w → durable (restart w).
Proof.
  intros Hd key c. unfold restart. rewrite lookup_fmap.
  destruct (w !! key) as [c0|] eqn:Hc; [|done].
  intros [= <-]. destruct (Hd key c0 Hc) as [Hok _]. by split.
Qed.

Lemma durable_prior_state : durable prior_state.
Proof.
  intros key c H. unfold prior_state in H.
  repeat (apply lookup_insert_Some in H as [[_ <-]|[_ H]]; [by split|]).
  by rewrite lookup_empty in H.
Qed.

(** X12. When every storage accepts writes, nothing counted is lost by a
    restart: after any sequence of requests, evicting every instance
    from memory, so that each counter is constructed again over its
    storage, leaves every counter reading what it read, and the
    namespace can go on the same way. *)
Theorem restart_keeps_every_counter
    (origin : Request → Response) (requests : list (Q * Request))
    (w : World) (key : string) :
  durable w →
  reading key (restart (serve origin requests w))
  = reading key (serve origin requests w) ∧
  durable (restart (serve origin requests w)).
Proof.
  intros Hd.
  assert (H : durable (serve origin requests w)).
  { apply serve_preserves;
      auto using durable_incrementCounter, durable_getCounterValue. }
  split; [by apply restart_reading | by apply restart_durable].
Qed.

Lemma restart_keeps_every_counter_witness :
  reading COUNTER_VARIANT_SHOW
    (restart (serve echo_origin
                [((1 # 4)%Q, request_to BASE_PATH None);
                 ((1 # 8)%Q, request_to BASE_PATH None)] prior_state))
  = JS.Num 9.
Proof.
  destruct (restart_keeps_every_counter echo_origin
              [((1 # 4)%Q, request_to BASE_PATH None);
               ((1 # 8)%Q, request_to BASE_PATH None)]
              prior_state COUNTER_VARIANT_SHOW durable_prior_state) as [-> _].
  apply (serve_reading echo_origin COUNTER_VARIANT_SHOW
           [((1 # 4)%Q, request_to BASE_PATH None);
            ((1 # 8)%Q, request_to BASE_PATH None)] prior_state 7).
  reflexivity.
Defined.

(** ** Requests that are always answered *)

Lemma action_counter_cases (g : string) :
  action_counter g = COUNTER_VARIANT_ACTION ∨
  action_counter g = COUNTER_CONTROL_ACTION.
Proof. unfold action_counter. destruct (String.eqb g "variant"); auto. Qed.

Lemma served_when_healthy
    (origin : Request → Response) (random : Q) (request : Request) (w : World) :
  healthy COUNTER_CONTROL_ACTION w = true →
  healthy COUNTER_VARIANT_ACTION w = true →
  served (handleRequest origin random request w).
Proof.
  intros Hc Hv. unfold served.
  destruct (String.eqb_spec (pathname (url request)) BASE_PATH) as [Hb|Hb].
  { destruct (assigned_group request) as [g|] eqn:Hg.
    - unfold assigned_group in Hg.
      destruct (hasControlCookie request) eqn:Hcc.
      + rewrite handleRequest_entry_control by done. by eexists.
      + destruct (hasVariantCookie request) eqn:Hvc; [|done].
        rewrite handleRequest_entry_variant by done. by eexists.
    - rewrite handleRequest_entry_new by done. by eexists. }
  destruct (String.eqb_spec (pathname (url request)) ACTION_PATH) as [Ha|Ha].
  { destruct (assigned_group request) as [g|] eqn:Hg.
    - destruct (actionNotCountedCookie request) eqn:Hdue.
      + rewrite (handleRequest_action_due origin random request w g) by done.
        destruct (incrementCounter_spec (action_counter g) w) as (w' & -> & _).
        destruct (action_counter_cases g) as [->| ->]; rewrite ?Hc, ?Hv;
          by eexists.
      + rewrite handleRequest_action_not_due by auto. by eexists.
    - rewrite handleRequest_action_not_due by auto. by eexists. }
  destruct (String.eqb_spec (pathname (url request)) RESULT_PATH) as [Hr|Hr].
  { destruct (handleRequest_result origin random request w Hr)
      as (w' & -> & _). by eexists. }
  rewrite handleRequest_other by done. by eexists.
Qed.

(** X13. As long as the storages of the two action counters accept
    writes, every request of every sequence is answered with a response:
    the handler fails on nothing but a rejected write.  This holds in
    particular from an empty namespace. *)
Theorem every_request_is_answered_when_writes_succeed
    (origin : Request → Response) (requests : list (Q * Request))
    (random : Q) (request : Request) (w : World) :
  healthy COUNTER_CONTROL_ACTION w = true →
  healthy COUNTER_VARIANT_ACTION w = true →
  served (handleRequest origin random request (serve origin requests w)) ∧
  served (handleRequest origin random request (serve origin requests ∅)).
Proof.
  intros Hc Hv. split; apply served_when_healthy;
    by rewrite serve_healthy.
Qed.

Lemma every_request_is_answered_when_writes_succeed_witness :
  served (handleRequest echo_origin 0
            (request_to ACTION_PATH (Some "cloudflare_ab_test=control"))
            (serve echo_origin
               [((1 # 4)%Q, request_to BASE_PATH None);
                (0%Q, request_to ACTION_PATH
                        (Some "cloudflare_ab_test=variant"))]
               prior_state)).
Proof.
  apply (every_request_is_answered_when_writes_succeed echo_origin
           [((1 # 4)%Q, request_to BASE_PATH None);
            (0%Q, request_to ACTION_PATH (Some "cloudflare_ab_test=variant"))]
           0 (request_to ACTION_PATH (Some "cloudflare_ab_test=control"))
           prior_state); reflexivity.
Defined.

(** ** The result path only reads *)

(** X14. A result request is answered, also when every storage rejects
    writes; it changes no reading, no storage and no storage's health,
    and a result request repeated right after it gets the same
    response. *)
Theorem result_path_only_reads
    (origin : Request → Response) (random : Q) (request : Request) (w : World) :
  pathname (url request) = RESULT_PATH →
  ∃ w',
    handleRequest origin random request w
    = (Fulfilled (result_response w), w') ∧
    (∀ key, reading key w' = reading key w ∧
            healthy key w' = healthy key w ∧
            Counter.storage (COUNTER_get key w')
            = Counter.storage (COUNTER_get key w)) ∧
    ∀ random', fst (handleRequest origin random' request w')
               = Fulfilled (result_response w).
Proof.
  intros Hpath.
  destruct (handleRequest_result origin random request w Hpath)
    as (w' & Hres & Hread).
  exists w'. split; [done|]. split.
  - intros key.
    assert (Hw' : w' = snd (handleRequest origin random request w))
      by (by rewrite Hres).
    rewrite Hw', handleRequest_snd. unfold counted_by. rewrite Hpath.
    change (String.eqb RESULT_PATH BASE_PATH) with false.
    change (String.eqb RESULT_PATH ACTION_PATH) with false.
    change (String.eqb RESULT_PATH RESULT_PATH) with true. cbv iota.
    repeat split.
    + rewrite !(proj1 (getCounterValue_keeps _ key _)). done.
    + rewrite !(proj1 (proj2 (getCounterValue_keeps _ key _))). done.
    + rewrite !(proj2 (proj2 (getCounterValue_keeps _ key _))). done.
  - intros random'.
    destruct (handleRequest_result origin random' request w' Hpath)
      as (w'' & -> & _).
    cbn [fst]. unfold result_response. by rewrite !Hread.
Qed.

Lemma result_path_only_reads_witness :
  ∃ w', handleRequest echo_origin 0 (request_to RESULT_PATH None)
          failing_action_storage
        = (Fulfilled
             {| status := 200;
                headers := [("content-type", "application/json;charset=UTF-8")];
                body := JSON.stringify2 (result_data "0" "2" "0" "0") |}, w').
Proof.
  destruct (result_path_only_reads echo_origin 0
              (request_to RESULT_PATH None) failing_action_storage eq_refl)
    as (w' & H & _).
  exists w'. exact H.
Defined.

(** ** Every visitor is counted in exactly one group *)

Lemma counted_by_show (random : Q) (request : Request) :
  ((if decide (counted_by random request = Some COUNTER_CONTROL_SHOW)
    then 1 else 0)
   + (if decide (counted_by random request = Some COUNTER_VARIANT_SHOW)
      then 1 else 0))%nat
  = if new_visitor request then 1%nat else 0%nat.
Proof.
  unfold counted_by, new_visitor, assigned_group, show_counter, action_counter.
  destruct (String.eqb (pathname (url request)) BASE_PATH).
  - destruct (hasControlCookie request), (hasVariantCookie request);
      cbn [andb negb]; try (repeat case_decide; done).
    destruct (String.eqb (choose_group random) "variant");
      repeat case_decide; done.
  - cbn [andb].
    destruct (String.eqb (pathname (url request)) ACTION_PATH);
      [|repeat case_decide; done].
    destruct (hasControlCookie request), (hasVariantCookie request),
      (actionNotCountedCookie request);
      cbn [String.eqb Ascii.eqb Bool.eqb]; repeat case_decide; done.
Qed.

Lemma counted_by_action (random : Q) (request : Request) :
  ((if decide (counted_by random request = Some COUNTER_CONTROL_ACTION)
    then 1 else 0)
   + (if decide (counted_by random request = Some COUNTER_VARIANT_ACTION)
      then 1 else 0))%nat
  = if first_action request then 1%nat else 0%nat.
Proof.
  unfold counted_by, first_action, assigned_group, show_counter, action_counter.
  destruct (String.eqb_spec (pathname (url request)) BASE_PATH) as [Hb|Hb].
  - rewrite Hb. change (String.eqb BASE_PATH ACTION_PATH) with false.
    cbn [andb].
    destruct (hasControlCookie request), (hasVariantCookie request);
      try (repeat case_decide; done).
    destruct (String.eqb (choose_group random) "variant");
      repeat case_decide; done.
  - destruct (String.eqb (pathname (url request)) ACTION_PATH);
      [|repeat case_decide; done].
    destruct (hasControlCookie request), (hasVariantCookie request),
      (actionNotCountedCookie request);
      cbn [andb orb String.eqb Ascii.eqb Bool.eqb]; repeat case_decide; done.
Qed.

Lemma hits_show (requests : list (Q * Request)) :
  (hits COUNTER_CONTROL_SHOW requests + hits COUNTER_VARIANT_SHOW requests)%nat
  = length (filter (λ rr, new_visitor (snd rr) = true) requests).
Proof.
  induction requests as [|[random request] rest IH]; [done|].
  rewrite !hits_cons, filter_cons. cbn [snd].
  pose proof (counted_by_show random request) as H.
  destruct (new_visitor request); repeat case_decide; try done;
    cbn [length]; lia.
Qed.

Lemma hits_action (requests : list (Q * Request)) :
  (hits COUNTER_CONTROL_ACTION requests
   + hits COUNTER_VARIANT_ACTION requests)%nat
  = length (filter (λ rr, first_action (snd rr) = true) requests).
Proof.
  induction requests as [|[random request] rest IH]; [done|].
  rewrite !hits_cons, filter_cons. cbn [snd].
  pose proof (counted_by_action random request) as H.
  destruct (first_action request); repeat case_decide; try done;
    cbn [length]; lia.
Qed.

(** X15. Every new visitor is counted in exactly one group and every
    first action in exactly one group: starting from an empty namespace,
    after any sequence of requests the two show counters add up to the
    number of entry requests without a group cookie, and the two action
    counters add up to the number of action requests of assigned visitors
    not yet counted. *)
Theorem group_counters_add_up_to_the_visitors
    (origin : Request → Response) (requests : list (Q * Request)) :
  let w := serve origin requests ∅ in
  ∃ controlShow variantShow controlAction variantAction : Z,
    reading COUNTER_CONTROL_SHOW w = JS.Num controlShow ∧
    reading COUNTER_VARIANT_SHOW w = JS.Num variantShow ∧
    reading COUNTER_CONTROL_ACTION w = JS.Num controlAction ∧
    reading COUNTER_VARIANT_ACTION w = JS.Num variantAction ∧
    0 ≤ controlShow ∧ 0 ≤ variantShow ∧
    0 ≤ controlAction ∧ 0 ≤ variantAction ∧
    controlShow + variantShow
    = Z.of_nat (length (filter (λ rr, new_visitor (snd rr) = true) requests)) ∧
    controlAction + variantAction
    = Z.of_nat (length (filter (λ rr, first_action (snd rr) = true) requests)).
Proof.
  intros w. subst w.
  exists (0 + Z.of_nat (hits COUNTER_CONTROL_SHOW requests)),
         (0 + Z.of_nat (hits COUNTER_VARIANT_SHOW requests)),
         (0 + Z.of_nat (hits COUNTER_CONTROL_ACTION requests)),
         (0 + Z.of_nat (hits COUNTER_VARIANT_ACTION requests)).
  repeat split; try (by apply serve_reading); try lia.
  - rewrite <- hits_show. lia.
  - rewrite <- hits_action. lia.
Qed.

(** * Assignment as the handler detects it *)

Lemma includes_false (s pat : string) :
  ¬ occurs pat s → JS.includes s pat = false.
Proof.
  intros Hn. destruct (JS.includes s pat) eqn:H; [|done].
  apply includes_spec in H. done.
Qed.

Lemma includes_true (s pat : string) :
  occurs pat s → JS.includes s pat = true.
Proof. intros H. by apply includes_spec. Qed.

Lemma no_group_detected (request : Request) :
  cookie request = None ∨
  (∃ header, cookie request = Some header ∧
             ¬ occurs "cloudflare_ab_test=control" header ∧
             ¬ occurs "cloudflare_ab_test=variant" header) →
  assigned_group request = None.
Proof.
  unfold assigned_group, hasControlCookie, hasVariantCookie.
  intros [->|(header & -> & Hc & Hv)]; [done|].
  change (COOKIE_NAME +:+ "=control") with "cloudflare_ab_test=control".
  change (COOKIE_NAME +:+ "=variant") with "cloudflare_ab_test=variant".
  by rewrite (includes_false _ _ Hc), (includes_false _ _ Hv), !andb_false_r.
Qed.

Lemma group_detected (request : Request) (header g : string) :
  cookie request = Some header → detected_group header g →
  assigned_group request = Some g.
Proof.
  unfold assigned_group, hasControlCookie, hasVariantCookie. intros ->.
  change (COOKIE_NAME +:+ "=control") with "cloudflare_ab_test=control".
  change (COOKIE_NAME +:+ "=variant") with "cloudflare_ab_test=variant".
  intros [[-> Hc]|(-> & Hc & Hv)].
  - apply includes_true in Hc. rewrite Hc.
    by destruct header.
  - apply includes_true in Hv. rewrite (includes_false _ _ Hc), Hv.
    rewrite andb_false_r. by destruct header.
Qed.

Lemma not_counted_detected (request : Request) (header g : string) :
  cookie request = Some header → detected_group header g →
  ¬ occurs "cloudflare_ab_test_counted=true" header →
  actionNotCountedCookie request = true.
Proof.
  unfold actionNotCountedCookie. intros -> Hg Hn.
  rewrite (includes_false _ _ Hn).
  destruct header; [|done].
  destruct Hg as [[_ H]|(_ & _ & H)]; apply includes_true in H; done.
Qed.

(** C4, as the code has it.  A request to the entry path without a cookie
    header, or in whose cookie header neither the text
    [cloudflare_ab_test=control] nor the text [cloudflare_ab_test=variant]
    occurs anywhere, is put in the variant group when the draw is below one
    half and in the control group otherwise (of [2 ^ (n + 1)] equally
    likely draws, one half each); the show counter of the chosen group is
    incremented once, in memory and, if the storage accepts the write, in
    the storage, and no other counter changes; the response is the page
    of the group, with one more [Set-Cookie] header that assigns
    [cloudflare_ab_test] to the group, whose only attribute is [path=/]:
    no expiry is set. *)
Theorem new_visitor_is_assigned_at_random_and_counted_once
    (origin : Request → Response) (random : Q) (request : Request) (w : World) :
  pathname (url request) = BASE_PATH →
  cookie request = None ∨
  (∃ header, cookie request = Some header ∧
             ¬ occurs "cloudflare_ab_test=control" header ∧
             ¬ occurs "cloudflare_ab_test=variant" header) →
  let group := choose_group random in
  ((group = "variant" ∧ (random < 1 # 2)%Q) ∨
   (group = "control" ∧ ¬ (random < 1 # 2)%Q)) ∧
  (∀ n, draws_choosing "variant" (S n) = seq 0 (2 ^ n) ∧
        draws_choosing "control" (S n) = seq (2 ^ n) (2 ^ n) ∧
        length (draws_choosing "variant" (S n)) = (2 ^ n)%nat ∧
        length (draws_choosing "control" (S n)) = (2 ^ n)%nat) ∧
  ∃ w',
    handleRequest origin random request w
    = (Fulfilled
         (append_header "Set-Cookie"
            ("cloudflare_ab_test=" +:+ group +:+ "; path=/")
            (origin {| url := set_pathname (group_page group) (url request);
                       cookie := cookie request |})),
       w') ∧
    reading (show_counter group) w'
    = JS.pre_incr (reading (show_counter group) w) ∧
    (∀ v, reading (show_counter group) w = JS.Num v →
          reading (show_counter group) w' = JS.Num (v + 1) ∧
          (healthy (show_counter group) w = true →
           Counter.storage (COUNTER_get (show_counter group) w')
           = JS.Num (v + 1))) ∧
    (∀ key, key ≠ show_counter group → w' !! key = w !! key) ∧
    cookie_pair ("cloudflare_ab_test=" +:+ group +:+ "; path=/")
    = "cloudflare_ab_test=" +:+ group ∧
    cookie_attributes ("cloudflare_ab_test=" +:+ group +:+ "; path=/")
    = [" path=/"].
Proof.
  intros Hpath Hnone.
  apply new_visitor_is_assigned_and_counted_once; [done|].
  by apply no_group_detected.
Qed.

Lemma new_visitor_is_assigned_at_random_and_counted_once_witness :
  let request := request_to "/abtest" (Some "theme=dark") in
  ∃ w', handleRequest echo_origin (1 # 4) request ∅
        = (Fulfilled
             {| status := 200;
                headers := [("Set-Cookie", "cloudflare_ab_test=variant; path=/")];
                body := "/abtest/variant" |}, w') ∧
        reading COUNTER_VARIANT_SHOW w' = JS.Num 1 ∧
        reading COUNTER_CONTROL_SHOW w' = JS.Num 0.
Proof.
  intros request.
  destruct (new_visitor_is_assigned_at_random_and_counted_once
              echo_origin (1 # 4) request ∅)
    as (_ & _ & w' & Hres & _ & Hread & Hothers & _); [reflexivity| |].
  { right. exists "theme=dark". split; [reflexivity|].
    split; intros H%includes_true; vm_compute in H; discriminate H. }
  exists w'. split; [exact Hres|]. split.
  - by apply (Hread 0).
  - unfold reading, COUNTER_get.
    rewrite (Hothers COUNTER_CONTROL_SHOW); [reflexivity|discriminate].
Defined.

(** C4, as the specification states it, fails.  The header
    [x_cloudflare_ab_test=control] carries a cookie of another name and
    no assignment cookie, yet the handler takes the request for a control
    visitor's: whatever the draw would choose, the response carries no
    [Set-Cookie] header and no show counter is incremented. *)
Lemma other_cookie_name_is_taken_for_an_assignment :
  let request := request_to BASE_PATH (Some "x_cloudflare_ab_test=control") in
  spec_assignment_cookies request = [] ∧
  ¬ (∃ response w',
       handleRequest echo_origin (1 # 4) request ∅ = (Fulfilled response, w') ∧
       set_cookies response = ["cloudflare_ab_test=variant; path=/"] ∧
       reading COUNTER_VARIANT_SHOW w' = JS.Num 1) ∧
  ¬ (∃ response w',
       handleRequest echo_origin (3 # 4) request ∅ = (Fulfilled response, w') ∧
       set_cookies response = ["cloudflare_ab_test=control; path=/"] ∧
       reading COUNTER_CONTROL_SHOW w' = JS.Num 1).
Proof.
  intros request. split; [reflexivity|].
  split; intros (response & w' & Hres & Hcookie & _);
    vm_compute in Hres; injection Hres as <- _;
    vm_compute in Hcookie; discriminate Hcookie.
Qed.

(** C5, as the code has it.  A visitor in whose cookie header the handler
    detects a group (control if [cloudflare_ab_test=control] occurs
    anywhere in the header, otherwise variant if
    [cloudflare_ab_test=variant] occurs) and finds no
    [cloudflare_ab_test_counted=true], and who requests the action path,
    has the action counter of the detected group incremented once (no
    other counter changes) and receives the redirect with the dedup
    cookie; a second request that carries that cookie changes no counter
    and still receives the redirect. *)
Theorem action_is_counted_once_for_the_detected_group
    (origin : Request → Response) (random1 : Q) (request1 : Request)
    (w : World) (header g : string) :
  pathname (url request1) = ACTION_PATH →
  cookie request1 = Some header →
  detected_group header g →
  ¬ occurs "cloudflare_ab_test_counted=true" header →
  healthy (action_counter g) w = true →
  (action_counter g
   = if String.eqb g "control" then COUNTER_CONTROL_ACTION
     else COUNTER_VARIANT_ACTION) ∧
  ∃ response1 w1,
    handleRequest origin random1 request1 w = (Fulfilled response1, w1) ∧
    response1 = setActionCountedCookie action_redirect ∧
    set_cookies response1 = ["cloudflare_ab_test_counted=true; path=/"] ∧
    reading (action_counter g) w1
    = JS.pre_incr (reading (action_counter g) w) ∧
    (∀ v, reading (action_counter g) w = JS.Num v →
          reading (action_counter g) w1 = JS.Num (v + 1) ∧
          Counter.storage (COUNTER_get (action_counter g) w1)
          = JS.Num (v + 1)) ∧
    (∀ key, key ≠ action_counter g → w1 !! key = w !! key) ∧
    ∀ random2 request2,
      pathname (url request2) = ACTION_PATH →
      (∀ set_cookie, set_cookie ∈ set_cookies response1 →
                     carries request2 (cookie_pair set_cookie)) →
      handleRequest origin random2 request2 w1 = (Fulfilled action_redirect, w1).
Proof.
  intros Hpath Hcookie Hg Hn Hok. split.
  - by destruct Hg as [[-> _]|(-> & _)].
  - apply (action_is_counted_once_per_visitor origin random1 request1 w g);
      try done.
    + by apply (group_detected request1 header g).
    + by apply (not_counted_detected request1 header g).
Qed.

Lemma action_is_counted_once_for_the_detected_group_witness :
  let request1 := request_to ACTION_PATH (Some "cloudflare_ab_test=variant") in
  let request2 :=
    request_to ACTION_PATH
      (Some "cloudflare_ab_test=variant; cloudflare_ab_test_counted=true") in
  ∃ response1 w1,
    handleRequest echo_origin 0 request1 prior_state
    = (Fulfilled response1, w1) ∧
    reading COUNTER_VARIANT_ACTION w1 = JS.Num 4 ∧
    handleRequest echo_origin 0 request2 w1 = (Fulfilled action_redirect, w1).
Proof.
  intros request1 request2.
  destruct (action_is_counted_once_for_the_detected_group
              echo_origin 0 request1 prior_state
              "cloudflare_ab_test=variant" "variant")
    as (_ & response1 & w1 & Hres & -> & _ & _ & Hread & _ & Hsecond);
    try reflexivity.
  { right. split; [reflexivity|]. split.
    - intros H%includes_true. vm_compute in H. discriminate H.
    - by exists EmptyString, EmptyString. }
  { intros H%includes_true. vm_compute in H. discriminate H. }
  exists (setActionCountedCookie action_redirect), w1.
  split; [exact Hres|]. split.
  - by apply (Hread 3).
  - apply Hsecond; [reflexivity|].
    intros set_cookie Hin. apply list_elem_of_singleton in Hin as ->.
    eexists. split; reflexivity.
Defined.

(** C5, as the specification states it, fails.  A visitor assigned to the
    variant group whose header also holds a cookie named
    [x_cloudflare_ab_test] with the value [control] has the control
    action counter incremented by the action request, and the action
    counter of the visitor's own group, variant, is left as it was. *)
Lemma action_of_variant_visitor_is_counted_for_control :
  let request :=
    request_to ACTION_PATH
      (Some "x_cloudflare_ab_test=control; cloudflare_ab_test=variant") in
  let w1 := snd (handleRequest echo_origin 0 request prior_state) in
  spec_assignment_cookies request = ["variant"] ∧
  reading COUNTER_VARIANT_ACTION prior_state = JS.Num 3 ∧
  reading COUNTER_CONTROL_ACTION prior_state = JS.Num 2 ∧
  ¬ (reading COUNTER_VARIANT_ACTION w1 = JS.Num 4 ∧
     reading COUNTER_CONTROL_ACTION w1 = JS.Num 2) ∧
  reading COUNTER_VARIANT_ACTION w1 = JS.Num 3 ∧
  reading COUNTER_CONTROL_ACTION w1 = JS.Num 3.
Proof.
  intros request w1. repeat split; try reflexivity.
  intros [H _]. vm_compute in H. discriminate H.
Qed.
